(** * MPlib: the demo orchestration layer ([mplib/examples/demo_setup.py])

    [DemoSetup] drives a SAPIEN articulation along trajectories computed by
    [mplib.Planner].  The planner (module [mplib.planner], the [pymp]
    extension) and the simulator ([sapien]) are external to the file that is
    verified here: they appear as interfaces, and every statement below is
    quantified over all their implementations.

    Python values are embedded as follows.
    - [float] is IEEE binary64, Rocq's primitive [float]; the demo never
      computes on joint values, it only forwards them, and [1 / 250] is the
      float division it is in Python.
    - a numpy array of shape (n, d) is a [list (list float)], indexed with
      [!!]; an index past the end raises [IndexError].
    - [self] is the record [World]; a method is a function in the monad [M],
      which threads the world and carries Python exceptions.
    - calls that leave the class (simulator, viewer, planner, [print]) are
      recorded in order in [trace].

    [setup_scene], [load_robot] and [setup_planner] only configure the
    simulator and construct the planner; what they leave behind is the
    initial [World]. *)

From Stdlib Require Import ZArith List String Floats Bool Lia.
From stdpp Require Import base list strings gmap.

Local Open Scope string_scope.
Local Open Scope list_scope.

(** ** Values *)

(** Joint-space configuration: one float per joint. *)
Abbreviation Config := (list float).

(** A drive of a SAPIEN joint: the targets written by [set_drive_target] and
    [set_drive_velocity_target], and the gains of [set_drive_property]. *)
Record Joint := mkJoint {
  drive_target : float;
  drive_velocity_target : float;
  stiffness : float;
  damping : float
}.

Definition set_drive_target (x : float) (jt : Joint) : Joint :=
  {| drive_target := x;
     drive_velocity_target := drive_velocity_target jt;
     stiffness := stiffness jt;
     damping := damping jt |}.

Definition set_drive_velocity_target (x : float) (jt : Joint) : Joint :=
  {| drive_target := drive_target jt;
     drive_velocity_target := x;
     stiffness := stiffness jt;
     damping := damping jt |}.

(** Modelled from the spec: the status enumeration of the planning request
    surface (section 6, [status] in {Success, IKFailure, PlanningFailure,
    InfeasibleTimingError, UnknownLinkError}); its declaration is in the
    planner module, which is not part of the demo file.  The demo reads a
    status through its name only ([result["status"] != "Success"]). *)
Inductive Status :=
| Success
| IKFailure
| PlanningFailure
| InfeasibleTimingError
| UnknownLinkError.

Definition status_name (s : Status) : string :=
  match s with
  | Success => "Success"
  | IKFailure => "IKFailure"
  | PlanningFailure => "PlanningFailure"
  | InfeasibleTimingError => "InfeasibleTimingError"
  | UnknownLinkError => "UnknownLinkError"
  end.

Definition status_names : list string :=
  ["Success"; "IKFailure"; "PlanningFailure"; "InfeasibleTimingError";
   "UnknownLinkError"].

(** The dictionary a planning call returns; its keys are those listed in
    [move_to_pose_with_RRTConnect]: 'status', 'time', 'position', 'velocity',
    'acceleration', 'duration'. *)
Record PlanResult := mkResult {
  status : Status;
  time : list float;
  position : list (list float);
  velocity : list (list float);
  acceleration : list (list float);
  duration : float
}.

(** ** The external interfaces *)

(** [sapien]: the articulation's dynamic state is opaque; the demo queries it
    and advances it, and owns the joint drives and the generalized force. *)
Class Simulator (Phys : Type) := {
  get_qpos : Phys -> Config;
  compute_passive_force : Phys -> list float;
  scene_step : list Joint -> list float -> Phys -> Phys
}.

(** [mplib.Planner]: two planning entry points, each returning a result
    dictionary and possibly updating the planner's own state, and the
    attribute [move_group_joint_indices]. *)
Class Planner (Pose PState : Type) := {
  plan_qpos_to_pose : Pose -> Config -> float -> PState -> PlanResult * PState;
  plan_screw : Pose -> Config -> float -> PState -> PlanResult * PState;
  move_group_joint_indices : PState -> list nat
}.

(** ** The state of a [DemoSetup] object *)

Inductive Event {Pose : Type} :=
| EvPrint (s : string)
| EvPlanQposToPose (pose : Pose) (qpos : Config) (time_step : float)
| EvPlanScrew (pose : Pose) (qpos : Config) (time_step : float)
| EvSetQf (qf : list float)
| EvSetDriveTarget (j : nat) (x : float)
| EvSetDriveVelocityTarget (j : nat) (x : float)
| EvStep
| EvUpdateRender
| EvRender.
Arguments Event : clear implicits.

Record World {Pose Phys PState : Type} := mkWorld {
  phys : Phys;
  robot_qf : list float;
  active_joints : list Joint;
  planner : PState;
  trace : list (Event Pose)
}.
Arguments World : clear implicits.
Arguments mkWorld {Pose Phys PState}.

Inductive Exn := IndexError.

Inductive Outcome (A : Type) :=
| Returned (a : A)
| Raised (e : Exn).
Arguments Returned {A}.
Arguments Raised {A}.

Section DemoSetup.
Context {Pose Phys PState : Type}.
Context `{!Simulator Phys} `{!Planner Pose PState}.

Local Abbreviation W := (World Pose Phys PState).

Definition M (A : Type) : Type := W -> Outcome A * W.

Definition ret {A} (a : A) : M A := fun w => (Returned a, w).

Definition raise {A} (e : Exn) : M A := fun w => (Raised e, w).

Definition bind {A B} (m : M A) (k : A -> M B) : M B :=
  fun w =>
    match m w with
    | (Returned a, w') => k a w'
    | (Raised e, w') => (Raised e, w')
    end.

Notation "x <- m ;; k" := (bind m (fun x => k))
  (at level 62, m at next level, right associativity).
Notation "m ;;; k" := (bind m (fun _ => k))
  (at level 62, right associativity).

Definition emit (e : Event Pose) : M unit :=
  fun w =>
    (Returned tt,
     mkWorld (phys w) (robot_qf w) (active_joints w) (planner w)
             (trace w ++ [e])).

Definition get {A} (f : W -> A) : M A := fun w => (Returned (f w), w).

(** [xs[i]] on a Python sequence, for [i >= 0]. *)
Definition index {A} (xs : list A) (i : nat) : M A :=
  match xs !! i with
  | Some x => ret x
  | None => raise IndexError
  end.

(** [for x in xs: body(x)]; an exception leaves the loop. *)
Fixpoint for_each {A} (xs : list A) (body : A -> M unit) : M unit :=
  match xs with
  | [] => ret tt
  | x :: xs' => body x ;;; for_each xs' body
  end.

(** [range(n)] *)
Definition range (n : nat) : list nat := seq 0 n.

(** *** Calls into the simulator *)

(** [self.robot.set_qf(qf)] *)
Definition robot_set_qf (qf : list float) : M unit :=
  fun w =>
    (Returned tt,
     mkWorld (phys w) qf (active_joints w) (planner w)
             (trace w ++ [EvSetQf qf])).

(** [self.active_joints[j].set_drive_target(x)], the joint already looked
    up: the list holds references to the articulation's joints, so the
    update is seen by the robot. *)
Definition joint_set_drive_target (j : nat) (x : float) : M unit :=
  fun w =>
    (Returned tt,
     mkWorld (phys w) (robot_qf w)
             (alter (set_drive_target x) j (active_joints w))
             (planner w) (trace w ++ [EvSetDriveTarget j x])).

Definition joint_set_drive_velocity_target (j : nat) (x : float) : M unit :=
  fun w =>
    (Returned tt,
     mkWorld (phys w) (robot_qf w)
             (alter (set_drive_velocity_target x) j (active_joints w))
             (planner w) (trace w ++ [EvSetDriveVelocityTarget j x])).

(** [self.scene.step()] *)
Definition do_scene_step : M unit :=
  fun w =>
    (Returned tt,
     mkWorld (scene_step (active_joints w) (robot_qf w) (phys w))
             (robot_qf w) (active_joints w) (planner w)
             (trace w ++ [EvStep])).

(** [self.scene.update_render(); self.viewer.render()] *)
Definition render : M unit :=
  emit EvUpdateRender ;;; emit EvRender.

(** *** [follow_path] *)

(** The two statements of the inner loop, for joint [j] of sample [i].
    Python evaluates [self.active_joints[j]] before the argument
    [result["position"][i][j]]; the second statement can raise after the
    first has written its target. *)
Definition drive_joint (result : PlanResult) (i j : nat) : M unit :=
  js <- get active_joints ;;
  _ <- index js j ;;
  row <- index (position result) i ;;
  x <- index row j ;;
  joint_set_drive_target j x ;;;
  js' <- get active_joints ;;
  _ <- index js' j ;;
  vrow <- index (velocity result) i ;;
  v <- index vrow j ;;
  joint_set_drive_velocity_target j v.

(** The body of the outer loop, for sample [i]. *)
Definition follow_step (result : PlanResult) (i : nat) : M unit :=
  qf <- get (fun w => compute_passive_force (phys w)) ;;
  robot_set_qf qf ;;;
  n <- get (fun w => length (move_group_joint_indices (planner w))) ;;
  for_each (range n) (drive_joint result i) ;;;
  do_scene_step ;;;
  if (i mod 4 =? 0)%nat then render else ret tt.

Definition follow_path (result : PlanResult) : M unit :=
  for_each (range (length (position result))) (follow_step result).

(** *** [set_gripper], [open_gripper], [close_gripper] *)

(** The indices selected by [self.active_joints[-2:]]. *)
Definition last_two (n : nat) : list nat := seq (n - 2) (n - (n - 2)).

Definition gripper_step (i : nat) : M unit :=
  qf <- get (fun w => compute_passive_force (phys w)) ;;
  robot_set_qf qf ;;;
  do_scene_step ;;;
  if (i mod 4 =? 0)%nat then render else ret tt.

Definition set_gripper (pos : float) : M unit :=
  n <- get (fun w => length (active_joints w)) ;;
  for_each (last_two n) (fun j => joint_set_drive_target j pos) ;;;
  for_each (range 100) gripper_step.

Definition open_gripper : M unit := set_gripper 0.4%float.

Definition close_gripper : M unit := set_gripper 0%float.

(** *** Planning and following *)

(** [print(s)] *)
Definition print (s : string) : M unit := emit (EvPrint s).

(** [self.planner.plan_qpos_to_pose(pose, qpos, time_step=dt)] *)
Definition call_plan_qpos_to_pose (pose : Pose) (qpos : Config) (dt : float)
  : M PlanResult :=
  fun w =>
    let '(r, ps) := plan_qpos_to_pose pose qpos dt (planner w) in
    (Returned r,
     mkWorld (phys w) (robot_qf w) (active_joints w) ps
             (trace w ++ [EvPlanQposToPose pose qpos dt])).

(** [self.planner.plan_screw(pose, qpos, time_step=dt)] *)
Definition call_plan_screw (pose : Pose) (qpos : Config) (dt : float)
  : M PlanResult :=
  fun w =>
    let '(r, ps) := plan_screw pose qpos dt (planner w) in
    (Returned r,
     mkWorld (phys w) (robot_qf w) (active_joints w) ps
             (trace w ++ [EvPlanScrew pose qpos dt])).

(** [result["status"] == "Success"] *)
Definition is_success (result : PlanResult) : bool :=
  String.eqb (status_name (status result)) "Success".

Definition move_to_pose_with_RRTConnect (pose : Pose) : M Z :=
  print "plan_qpos_to_pose" ;;;
  qpos <- get (fun w => get_qpos (phys w)) ;;
  result <- call_plan_qpos_to_pose pose qpos (1 / 250)%float ;;
  if negb (is_success result) then
    print (status_name (status result)) ;;;
    ret (-1)%Z
  else
    follow_path result ;;;
    ret 0%Z.

Definition move_to_pose_with_screw (pose : Pose) : M Z :=
  qpos <- get (fun w => get_qpos (phys w)) ;;
  result <- call_plan_screw pose qpos (1 / 250)%float ;;
  if is_success result then
    follow_path result ;;;
    ret 0%Z
  else
    move_to_pose_with_RRTConnect pose.

(** [with_screw] defaults to [True] at the call site. *)
Definition move_to_pose (pose : Pose) (with_screw : bool) : M Z :=
  if with_screw then move_to_pose_with_screw pose
  else move_to_pose_with_RRTConnect pose.

End DemoSetup.

(** ** Observations on traces *)

(** A request that crosses into the planner. *)
Definition is_planner_request {Pose} (e : Event Pose) : bool :=
  match e with
  | EvPlanQposToPose _ _ _ | EvPlanScrew _ _ _ => true
  | _ => false
  end.

Definition planner_requests {Pose} (evs : list (Event Pose))
  : list (Event Pose) :=
  List.filter is_planner_request evs.

(** A command sent to the simulator or the viewer. *)
Definition is_simulator_command {Pose} (e : Event Pose) : bool :=
  match e with
  | EvSetQf _ | EvSetDriveTarget _ _ | EvSetDriveVelocityTarget _ _
  | EvStep | EvUpdateRender | EvRender => true
  | _ => false
  end.

(** [a[i][j]] as an option. *)
Definition entry (a : list (list float)) (i j : nat) : option float :=
  match a !! i with
  | Some row => row !! j
  | None => None
  end.

(** What [follow_path result] may send out when the move group has [n]
    joints: drive targets for joints below [n] only, each read from the
    planner's result, and no print or planning request. *)
Definition follow_event {Pose} (n : nat) (result : PlanResult)
    (e : Event Pose) : Prop :=
  match e with
  | EvSetDriveTarget j x =>
      j < n /\ exists i, entry (position result) i j = Some x
  | EvSetDriveVelocityTarget j x =>
      j < n /\ exists i, entry (velocity result) i j = Some x
  | EvSetQf _ | EvStep | EvUpdateRender | EvRender => True
  | EvPrint _ | EvPlanQposToPose _ _ _ | EvPlanScrew _ _ _ => False
  end.

(** The relation between the worlds before and after [follow_path result]
    (or any part of it), for a move group of [n] joints. *)
Record follows {Pose Phys PState} (n : nat) (result : PlanResult)
    (w w' : World Pose Phys PState) : Prop := mkFollows {
  follows_planner : planner w' = planner w;
  follows_length : length (active_joints w') = length (active_joints w);
  follows_others :
    forall j, n <= j -> active_joints w' !! j = active_joints w !! j;
  follows_gains :
    forall j jt, active_joints w !! j = Some jt ->
      exists jt', active_joints w' !! j = Some jt' /\
                  stiffness jt' = stiffness jt /\ damping jt' = damping jt;
  follows_trace :
    exists evs, trace w' = trace w ++ evs /\ Forall (follow_event n result) evs
}.

(** [m], run from a world whose move group has [n] joints, relates the
    worlds before and after as [follows n result], whatever its outcome. *)
Definition keeps {Pose Phys PState} `{!Simulator Phys} `{!Planner Pose PState}
    {A} (n : nat) (result : PlanResult) (m : M (Pose := Pose) A) : Prop :=
  forall (w : World Pose Phys PState) o w',
    length (move_group_joint_indices (planner w)) = n ->
    m w = (o, w') -> follows n result w w'.

(** The events [evs] were sent, in this order and without interruption,
    between the worlds [w] and [w']. *)
Definition sent {Pose Phys PState} (w w' : World Pose Phys PState)
    (evs : list (Event Pose)) : Prop :=
  exists before after, trace w' = trace w ++ before ++ evs ++ after.

(** Kinds of simulator commands, for counting them in a trace. *)
Definition is_set_qf {Pose} (e : Event Pose) : bool :=
  match e with EvSetQf _ => true | _ => false end.

Definition is_drive_command {Pose} (e : Event Pose) : bool :=
  match e with
  | EvSetDriveTarget _ _ | EvSetDriveVelocityTarget _ _ => true
  | _ => false
  end.

Definition is_step {Pose} (e : Event Pose) : bool :=
  match e with EvStep => true | _ => false end.

Definition is_update_render {Pose} (e : Event Pose) : bool :=
  match e with EvUpdateRender => true | _ => false end.

Definition is_render {Pose} (e : Event Pose) : bool :=
  match e with EvRender => true | _ => false end.

Definition count_events {Pose} (p : Event Pose -> bool)
    (evs : list (Event Pose)) : nat :=
  length (List.filter p evs).

(** What turn [i] of a stepping loop sends after the drives are written:
    the passive force [qf], the scene step, and on every fourth turn the two
    render calls. *)
Definition turn_events {Pose} (i : nat) (qf : list float)
  : list (Event Pose) :=
  EvSetQf qf :: EvStep ::
    if (i mod 4 =? 0)%nat then [EvUpdateRender; EvRender] else [].

(** The loop indices at which the demo renders ([i % 4 == 0]). *)
Definition render_turns (steps : list nat) : nat :=
  length (List.filter (fun i => (i mod 4 =? 0)%nat) steps).

(** The arrays of [result] have an entry for every sample and every joint
    of a move group of [n] joints, and the robot has these joints among its
    [L] active joints. *)
Definition fits (n L : nat) (result : PlanResult) : Prop :=
  forall i j, i < length (position result) -> j < n ->
    j < L /\ is_Some (entry (position result) i j) /\
    is_Some (entry (velocity result) i j).

(** * The planning core, as the specification describes it

    The planner's own code (kinematic model, collision world) is not part of
    the demo file.  The two components below are written from the
    specification's text; the numerical routines they call (one solver
    update, the pose error, the kinematics of a link) stay parameters. *)

Module ArticulatedModel.

(** Modelled from the spec: a joint's [lower, upper] position limits
    (section 3, ArticulatedModel); the kinematic tree that carries them is
    not part of the demo file. *)
Record JointLimits := mkLimits {
  lower : float;
  upper : float
}.

(** Modelled from the spec: the test "within joint limits" of section 4.1,
    one limit per joint of the configuration. *)
Fixpoint within_limits (limits : list JointLimits) (q : Config) : bool :=
  match limits, q with
  | [], [] => true
  | l :: limits', x :: q' =>
      (lower l <=? x)%float && (x <=? upper l)%float
      && within_limits limits' q'
  | _, _ => false
  end.

Section InverseKinematics.
Context {Pose Link : Type}.
(** The fixed tree: limits of the move-group joints and the pose of a
    link in a configuration. *)
Variable limits : list JointLimits.
Variable forward_kinematics : Link -> Config -> Pose.
(** The residual between two poses, and one update of the iterative
    solver (damped least squares or Newton on the Jacobian). *)
Variable pose_error : Pose -> Pose -> float.
Variable ik_update : Pose -> Link -> Config -> Config.

Definition residual (target_pose : Pose) (link : Link) (q : Config)
  : float :=
  pose_error (forward_kinematics link q) target_pose.

(** Modelled from the spec: the iterative search of section 4.1 from the
    seed, at most [n] updates, stopping at the first configuration whose
    residual is within tolerance. *)
Fixpoint ik_search (target_pose : Pose) (link : Link) (tolerance : float)
    (n : nat) (q : Config) : option Config :=
  if (residual target_pose link q <=? tolerance)%float then Some q
  else
    match n with
    | O => None
    | S n' =>
        ik_search target_pose link tolerance n'
                  (ik_update target_pose link q)
    end.

(** Modelled from the spec: [inverse_kinematics(target_pose, link,
    seed_config, max_iterations, tolerance) -> (config | failure)] of
    section 4.1; it fails with IKFailure when the search does not
    converge, and a converged configuration outside the joint limits is
    rejected, not clamped. *)
Definition inverse_kinematics (target_pose : Pose) (link : Link)
    (seed_config : Config) (max_iterations : nat) (tolerance : float)
  : Config + Status :=
  match ik_search target_pose link tolerance max_iterations seed_config with
  | None => inr IKFailure
  | Some q => if within_limits limits q then inl q else inr IKFailure
  end.

End InverseKinematics.

End ArticulatedModel.

Module CollisionWorld.

(** Modelled from the spec: an object attached to a robot link (section 3,
    CollisionObject): the link it moves with and its offset to that link.
    No world pose is stored. *)
Record AttachedObject {Pose : Type} := mkAttached {
  attached_link : string;
  relative_offset : Pose
}.
Arguments AttachedObject : clear implicits.

(** Modelled from the spec: the part of the PlanningWorld (section 3) that
    attached objects depend on: the robot's current configuration and the
    registry of attached objects by name. *)
Record State {Pose : Type} := mkState {
  qpos : Config;
  attached : gmap string (AttachedObject Pose)
}.
Arguments State : clear implicits.

Inductive Op {Pose : Type} :=
| OpAttach (name link : string) (offset : Pose)
| OpDetach (name : string)
| OpSetQpos (q : Config).
Arguments Op : clear implicits.

Section World.
Context {Pose : Type}.
(** The fixed tree: its link names and the pose of a link in a
    configuration; and the composition of poses. *)
Variable link_names : list string.
Variable link_pose : string -> Config -> Pose.
Variable pose_mul : Pose -> Pose -> Pose.

(** Modelled from the spec: [attach] of section 4.2; the target link
    must exist, otherwise UnknownLinkError. *)
Definition attach (name link : string) (offset : Pose) (w : State Pose)
  : State Pose + Status :=
  if bool_decide (link ∈ link_names) then
    inl (mkState Pose (qpos w)
                 (<[name := mkAttached Pose link offset]> (attached w)))
  else inr UnknownLinkError.

(** Modelled from the spec: [detach] of section 4.2. *)
Definition detach (name : string) (w : State Pose) : State Pose :=
  mkState Pose (qpos w) (delete name (attached w)).

(** Modelled from the spec: placing the robot in a configuration (the
    first step of [is_valid(config)], section 4.2). *)
Definition set_qpos (q : Config) (w : State Pose) : State Pose :=
  mkState Pose q (attached w).

(** Modelled from the spec: the world pose of an attached object,
    recomputed on each query as [link_pose * relative_offset] (section 3
    and the design notes). *)
Definition attached_pose (w : State Pose) (name : string) : option Pose :=
  match attached w !! name with
  | Some o =>
      Some (pose_mul (link_pose (attached_link o) (qpos w))
                     (relative_offset o))
  | None => None
  end.

(** One mutation of the registry between plans; a refused [attach]
    leaves the world as it was. *)
Definition apply_op (w : State Pose) (op : Op Pose) : State Pose :=
  match op with
  | OpAttach name link offset =>
      match attach name link offset w with
      | inl w' => w'
      | inr _ => w
      end
  | OpDetach name => detach name w
  | OpSetQpos q => set_qpos q w
  end.

Definition run (ops : list (Op Pose)) (w : State Pose) : State Pose :=
  fold_left apply_op ops w.

(** The operation concerns the object [name]. *)
Definition touches (name : string) (op : Op Pose) : bool :=
  match op with
  | OpAttach name' _ _ | OpDetach name' => String.eqb name name'
  | OpSetQpos _ => false
  end.

End World.

End CollisionWorld.

Module ScrewMotionPlanner.

(** Modelled from the spec: the two planning components of section 2 that
    a pose request can run (ScrewMotionPlanner, SamplingPlanner); the core
    keeps the list of those that ran as its state, so that a fallback inside
    the core would show. *)
Inductive Component :=
| ScrewMotion
| Sampling.

Section Planner.
Context {Pose : Type}.
(** The fixed model and world: the end effector's pose in a configuration,
    the screw from one pose to another sampled at a fixed step count,
    inverse kinematics from a seed ([None]: not convergent), the validity
    of a configuration, the time parameterization of a path, the answer of
    the sampling planner, and the move group. *)
Variable end_effector_pose : Config -> Pose.
Variable screw_samples : Pose -> Pose -> list Pose.
Variable solve_ik : Pose -> Config -> option Config.
Variable is_valid : Config -> bool.
Variable parameterize : list Config -> float -> PlanResult.
Variable sampling_plan : Pose -> Config -> float -> PlanResult.
Variable move_group : list nat.

(** Modelled from the spec: the steps of section 4.4.  Each intermediate
    pose is converted to joint space by inverse kinematics seeded with the
    previous solution and validated; the first step that does not converge
    (IKFailure) or is invalid (PlanningFailure) ends the plan. *)
Fixpoint screw_path (poses : list Pose) (seed : Config)
  : list Config + Status :=
  match poses with
  | [] => inl []
  | pose :: poses' =>
      match solve_ik pose seed with
      | None => inr IKFailure
      | Some q =>
          if is_valid q then
            match screw_path poses' q with
            | inl path => inl (q :: path)
            | inr failure => inr failure
            end
          else inr PlanningFailure
      end
  end.

(** Modelled from the spec: a result that carries a failure status and no
    sample. *)
Definition refused (failure : Status) : PlanResult :=
  mkResult failure [] [] [] [] 0%float.

(** Modelled from the spec: the screw-motion planner of section 4.4, from
    the end effector's current pose to the target, followed by the time
    parameterization of section 4.5. *)
Definition plan (target : Pose) (start : Config) (time_step : float)
  : PlanResult :=
  match
    screw_path (screw_samples (end_effector_pose start) target) start
  with
  | inl path => parameterize (start :: path) time_step
  | inr failure => refused failure
  end.

(** Modelled from the spec: the planner facade of section 6 as the demo
    sees it; each entry point runs its own component and records it. *)
Definition core : Planner Pose (list Component) :=
  {| plan_screw := fun target start time_step ran =>
       (plan target start time_step, ran ++ [ScrewMotion]);
     plan_qpos_to_pose := fun target start time_step ran =>
       (sampling_plan target start time_step, ran ++ [Sampling]);
     move_group_joint_indices := fun _ => move_group |}.

End Planner.

End ScrewMotionPlanner.

(** * A concrete scene

    A three-joint arm (two move-group joints and one finger), a simulator
    that counts its steps and a planner whose answers depend on the target
    only: the screw planner succeeds on even targets, the sampling planner
    on targets below ten.  The statements above are run on it. *)

Module Scene.

Definition success_result : PlanResult :=
  mkResult Success
           [0; 0.5]%float
           [[0.25; 0.5]; [0.75; 1]]%float
           [[0; 0]; [2; 1.5]]%float
           [[0; 0]; [0; 0]]%float
           0.5%float.

Definition failure_result (s : Status) : PlanResult :=
  mkResult s [] [] [] [] 0%float.

#[global] Instance counting_simulator : Simulator nat :=
  {| get_qpos := fun _ => [0; 0; 0]%float;
     compute_passive_force := fun _ => [0; 0; 0]%float;
     scene_step := fun _ _ steps => S steps |}.

#[global] Instance table_planner : Planner nat nat :=
  {| plan_qpos_to_pose := fun pose _ _ calls =>
       (if Nat.ltb pose 10 then success_result
        else failure_result IKFailure,
        S calls);
     plan_screw := fun pose _ _ calls =>
       (if Nat.even pose then success_result
        else failure_result PlanningFailure,
        S calls);
     move_group_joint_indices := fun _ => [0; 1] |}.

Definition rest_joint : Joint :=
  mkJoint 0%float 0%float 1000%float 200%float.

Definition initial : World nat nat nat :=
  mkWorld 0 [] [rest_joint; rest_joint; rest_joint] 0 [].

(** A one-joint slider for the kinematic model: the pose of its link is
    the joint value, the error between poses their distance, and one solver
    update lands on the target.  The joint ranges over [0, 1]. *)
Definition slider_limits : list ArticulatedModel.JointLimits :=
  [ArticulatedModel.mkLimits 0%float 1%float].

Definition slider_pose (_ : unit) (q : Config) : float := hd 0%float q.

Definition slider_error (a b : float) : float := abs (a - b)%float.

Definition slider_update (target : float) (_ : unit) (_ : Config) : Config :=
  [target].

(** The same slider with its joint welded: the link stays at pose 0. *)
Definition welded_pose (_ : unit) (_ : Config) : float := 0%float.

(** Symbolic poses for the collision world: a pose is a word, composition
    is concatenation (associative, not commutative), and the pose of a link
    is the word of the joint values. *)
Definition word_link_names : list string := ["panda_hand"; "panda_link5"].

Definition word_link_pose (_ : string) (q : Config) : list float := q.

Definition empty_world : CollisionWorld.State (list float) :=
  CollisionWorld.mkState (list float) [] ∅.

(** A screw planner for the slider of the kinematic model: the screw from
    pose [a] to pose [b] is sampled at its midpoint and at [b]; inverse
    kinematics lands on the pose; a configuration is valid up to 1; a path
    is timed with one sample per waypoint; the sampling planner answers
    with [success_result]. *)
Definition slider_screw_samples (a b : float) : list float :=
  [((a + b) / 2)%float; b].

Definition slider_solve_ik (pose : float) (_ : Config) : option Config :=
  Some [pose].

Definition slider_is_valid (q : Config) : bool := (hd 0%float q <=? 1)%float.

Definition slider_parameterize (path : list Config) (_ : float) : PlanResult :=
  mkResult Success (map (fun _ => 0%float) path) path
           (map (fun q => map (fun _ => 0%float) q) path)
           (map (fun q => map (fun _ => 0%float) q) path) 0%float.

Definition slider_core : Planner float (list ScrewMotionPlanner.Component) :=
  ScrewMotionPlanner.core (hd 0%float) slider_screw_samples slider_solve_ik
    slider_is_valid slider_parameterize (fun _ _ _ => success_result) [0].

Definition slider_world
  : World float nat (list ScrewMotionPlanner.Component) :=
  mkWorld 0 [] [rest_joint; rest_joint; rest_joint] [] [].

End Scene.

(** * Properties of the demo layer *)

Section DemoSetupFacts.
Context {Pose Phys PState : Type}.
Context `{!Simulator Phys} `{!Planner Pose PState}.

Local Abbreviation W := (World Pose Phys PState).
Implicit Types (w : W) (result : PlanResult).

Lemma follows_refl n result w : follows n result w w.
Proof.
  split; eauto.
  exists []. by rewrite app_nil_r.
Qed.

Lemma follows_trans n result w1 w2 w3 :
  follows n result w1 w2 -> follows n result w2 w3 ->
  follows n result w1 w3.
Proof.
  intros [Hp1 Hl1 Ho1 Hg1 (evs1 & Ht1 & Hf1)]
         [Hp2 Hl2 Ho2 Hg2 (evs2 & Ht2 & Hf2)].
  split.
  - congruence.
  - congruence.
  - intros j Hj. rewrite Ho2, Ho1; auto.
  - intros j jt Hjt.
    destruct (Hg1 j jt Hjt) as (jt1 & Hjt1 & Hs1 & Hd1).
    destruct (Hg2 j jt1 Hjt1) as (jt2 & Hjt2 & Hs2 & Hd2).
    exists jt2. repeat split; congruence.
  - exists (evs1 ++ evs2). split.
    + rewrite Ht2, Ht1. by rewrite app_assoc.
    + by apply Forall_app.
Qed.

Lemma keeps_ret {A} n result (a : A) : keeps n result (ret a).
Proof. intros w o w' _ [= <- <-]. apply follows_refl. Qed.

Lemma keeps_raise {A} n result e : keeps n result (raise (A := A) e).
Proof. intros w o w' _ [= <- <-]. apply follows_refl. Qed.

Lemma keeps_bind {A B} n result (m : M A) (k : A -> M B) :
  keeps n result m -> (forall a, keeps n result (k a)) ->
  keeps n result (bind m k).
Proof.
  intros Hm Hk w o w' Hn. unfold bind.
  destruct (m w) as [[a|e] w1] eqn:Em; intros Hrun.
  - pose proof (Hm _ _ _ Hn Em) as H1.
    eapply follows_trans; [exact H1|].
    eapply Hk; [|exact Hrun].
    by rewrite (follows_planner _ _ _ _ H1).
  - injection Hrun as <- <-. eapply Hm; eauto.
Qed.

Lemma keeps_get {A B} n result (f : W -> A) (k : A -> M B) :
  (forall a, keeps n result (k a)) -> keeps n result (bind (get f) k).
Proof.
  intros Hk w o w' Hn Hrun.
  apply (Hk (f w) w o w' Hn). exact Hrun.
Qed.

Lemma keeps_get_move_group {B} n result (k : nat -> M B) :
  keeps n result (k n) ->
  keeps n result
    (bind (get (fun w => length (move_group_joint_indices (planner w)))) k).
Proof.
  intros Hk w o w' Hn Hrun. unfold bind, get in Hrun.
  rewrite Hn in Hrun. apply (Hk w o w' Hn). exact Hrun.
Qed.

Lemma keeps_index {A B} n result (xs : list A) i (k : A -> M B) :
  (forall x, xs !! i = Some x -> keeps n result (k x)) ->
  keeps n result (bind (index xs i) k).
Proof.
  intros Hk w o w' Hn. unfold bind, index.
  destruct (xs !! i) as [x|] eqn:Ex; simpl.
  - intros Hrun. apply (Hk x eq_refl w o w' Hn). exact Hrun.
  - intros [= <- <-]. apply follows_refl.
Qed.

Lemma keeps_for_each {A} n result (xs : list A) (body : A -> M unit) :
  (forall x, x ∈ xs -> keeps n result (body x)) ->
  keeps n result (for_each xs body).
Proof.
  induction xs as [|x xs IH]; intros Hbody; simpl.
  - apply keeps_ret.
  - apply keeps_bind.
    + apply Hbody. by left.
    + intros _. apply IH. intros y Hy. apply Hbody. by right.
Qed.

(** The simulator commands of [follow_path]. *)

Lemma keeps_robot_set_qf n result qf : keeps n result (robot_set_qf qf).
Proof.
  intros w o w' _ [= <- <-]. split; simpl; eauto.
  exists [EvSetQf qf]. split; [done|]. by repeat constructor.
Qed.

Lemma keeps_do_scene_step n result : keeps n result do_scene_step.
Proof.
  intros w o w' _ [= <- <-]. split; simpl; eauto.
  exists [EvStep]. split; [done|]. by repeat constructor.
Qed.

Lemma keeps_render n result : keeps n result render.
Proof.
  intros w o w' _ [= <- <-]. split; simpl; eauto.
  exists [EvUpdateRender; EvRender]. split.
  - by rewrite <- app_assoc.
  - by repeat constructor.
Qed.

(** Writing one field of the drive of joint [j < n] with a value of the
    result. *)
Lemma follows_alter n result w (f : Joint -> Joint) j e :
  j < n ->
  (forall jt, stiffness (f jt) = stiffness jt /\ damping (f jt) = damping jt) ->
  follow_event n result e ->
  follows n result w
    (mkWorld (phys w) (robot_qf w) (alter f j (active_joints w))
             (planner w) (trace w ++ [e])).
Proof.
  intros Hj Hf He. split; simpl.
  - done.
  - apply length_alter.
  - intros j' Hj'. apply list_lookup_alter_ne. lia.
  - intros j' jt Hjt. destruct (decide (j = j')) as [->|Hne].
    + exists (f jt). rewrite list_lookup_alter_eq, Hjt. split; [done|apply Hf].
    + exists jt. by rewrite list_lookup_alter_ne.
  - exists [e]. split; [done|]. by repeat constructor.
Qed.

Lemma keeps_joint_set_drive_target n result i j x :
  j < n -> entry (position result) i j = Some x ->
  keeps n result (joint_set_drive_target j x).
Proof.
  intros Hj Hx w o w' _ [= <- <-].
  apply follows_alter; [done|done|]. simpl. eauto.
Qed.

Lemma keeps_joint_set_drive_velocity_target n result i j x :
  j < n -> entry (velocity result) i j = Some x ->
  keeps n result (joint_set_drive_velocity_target j x).
Proof.
  intros Hj Hx w o w' _ [= <- <-].
  apply follows_alter; [done|done|]. simpl. eauto.
Qed.

Lemma entry_lookup a i j row x :
  a !! i = Some row -> row !! j = Some x -> entry a i j = Some x.
Proof. unfold entry. by intros -> ->. Qed.

Lemma keeps_drive_joint n result i j :
  j < n -> keeps n result (drive_joint result i j).
Proof.
  intros Hj. unfold drive_joint.
  apply keeps_get; intros js.
  apply keeps_index; intros _ _.
  apply keeps_index; intros row Hrow.
  apply keeps_index; intros x Hx.
  apply keeps_bind.
  { eapply keeps_joint_set_drive_target; eauto using entry_lookup. }
  intros _. apply keeps_get; intros js'.
  apply keeps_index; intros _ _.
  apply keeps_index; intros vrow Hvrow.
  apply keeps_index; intros v Hv.
  eapply keeps_joint_set_drive_velocity_target; eauto using entry_lookup.
Qed.

Lemma elem_of_range j n : j ∈ range n -> j < n.
Proof. unfold range. rewrite elem_of_seq. lia. Qed.

Lemma keeps_follow_step n result i : keeps n result (follow_step result i).
Proof.
  unfold follow_step.
  apply keeps_get; intros qf.
  apply keeps_bind; [apply keeps_robot_set_qf|intros _].
  apply keeps_get_move_group.
  apply keeps_bind.
  { apply keeps_for_each. intros j Hj.
    apply keeps_drive_joint. by apply elem_of_range. }
  intros _. apply keeps_bind; [apply keeps_do_scene_step|intros _].
  destruct (i mod 4 =? 0)%nat; [apply keeps_render|apply keeps_ret].
Qed.

Lemma keeps_follow_path n result : keeps n result (follow_path result).
Proof.
  unfold follow_path. apply keeps_for_each.
  intros i _. apply keeps_follow_step.
Qed.

(** What a normal return tells about the samples. *)

Lemma bind_returned {A B} (m : M A) (k : A -> M B) w b w' :
  bind m k w = (Returned b, w') ->
  exists a w1, m w = (Returned a, w1) /\ k a w1 = (Returned b, w').
Proof.
  unfold bind. destruct (m w) as [[a|e] w1]; [eauto|discriminate].
Qed.

Lemma sent_after n result w w1 w' evs :
  follows n result w w1 -> sent w1 w' evs -> sent w w' evs.
Proof.
  intros [_ _ _ _ (evs1 & Ht & _)] (before & after & Hs).
  exists (evs1 ++ before), after.
  rewrite Hs, Ht. by rewrite <- !app_assoc.
Qed.

Lemma sent_before n result w w1 w' evs :
  sent w w1 evs -> follows n result w1 w' -> sent w w' evs.
Proof.
  intros (before & after & Hs) [_ _ _ _ (evs1 & Ht & _)].
  exists before, (after ++ evs1).
  rewrite Ht, Hs. by rewrite <- !app_assoc.
Qed.

Lemma for_each_visits {A} n result (xs : list A) (body : A -> M unit) :
  (forall x, x ∈ xs -> keeps n result (body x)) ->
  forall w w' x,
    length (move_group_joint_indices (planner w)) = n ->
    for_each xs body w = (Returned tt, w') ->
    x ∈ xs ->
    exists w1 w2,
      follows n result w w1 /\ body x w1 = (Returned tt, w2) /\
      follows n result w2 w'.
Proof.
  induction xs as [|y xs IH]; intros Hbody w w' x Hn Hrun Hx.
  - by apply elem_of_nil in Hx.
  - simpl in Hrun. apply bind_returned in Hrun as ([] & w1 & Hy & Hrest).
    assert (follows n result w w1) as Hw1.
    { eapply Hbody; [by left|exact Hn|exact Hy]. }
    assert (length (move_group_joint_indices (planner w1)) = n) as Hn1.
    { by rewrite (follows_planner _ _ _ _ Hw1). }
    apply elem_of_cons in Hx as [->|Hx].
    + exists w, w1. split; [apply follows_refl|]. split; [done|].
      eapply (keeps_for_each n result xs body); [|exact Hn1|exact Hrest].
      intros z Hz. apply Hbody. by right.
    + destruct (IH (fun z Hz => Hbody z (list_elem_of_further _ _ _ Hz))
                   w1 w' x Hn1 Hrest Hx) as (w2 & w3 & H12 & Hb & H3).
      exists w2, w3. split; [|done].
      eapply follows_trans; eauto.
Qed.

Lemma drive_joint_returned result i j w w' :
  drive_joint result i j w = (Returned tt, w') ->
  exists x v,
    entry (position result) i j = Some x /\
    entry (velocity result) i j = Some v /\
    trace w' = trace w ++ [EvSetDriveTarget j x; EvSetDriveVelocityTarget j v].
Proof.
  unfold drive_joint, entry, bind, get, index.
  destruct (active_joints w !! j) as [jt|] eqn:Ejt; simpl; [|discriminate].
  destruct (position result !! i) as [row|]; simpl; [|discriminate].
  destruct (row !! j) as [x|]; simpl; [|discriminate].
  rewrite list_lookup_alter_eq, Ejt. simpl.
  destruct (velocity result !! i) as [vrow|]; simpl; [|discriminate].
  destruct (vrow !! j) as [v|]; simpl; [|discriminate].
  intros [= <-]. exists x, v. simpl. by rewrite <- app_assoc.
Qed.

Lemma follow_step_returned n result i j w w' :
  length (move_group_joint_indices (planner w)) = n ->
  follow_step result i w = (Returned tt, w') ->
  j < n ->
  exists x v,
    entry (position result) i j = Some x /\
    entry (velocity result) i j = Some v /\
    sent w w' [EvSetDriveTarget j x; EvSetDriveVelocityTarget j v].
Proof.
  intros Hn Hrun Hj. unfold follow_step in Hrun.
  apply bind_returned in Hrun as (qf & w0 & [= <- <-] & Hrun).
  apply bind_returned in Hrun as ([] & w1 & Hqf & Hrun).
  pose proof (keeps_robot_set_qf n result _ _ _ _ Hn Hqf) as H1.
  assert (length (move_group_joint_indices (planner w1)) = n) as Hn1.
  { by rewrite (follows_planner _ _ _ _ H1). }
  apply bind_returned in Hrun as (n' & w1' & [= <- <-] & Hrun).
  rewrite Hn1 in Hrun.
  apply bind_returned in Hrun as ([] & w2 & Hloop & Hrest).
  destruct (for_each_visits n result (range n) (drive_joint result i))
    with (w := w1) (w' := w2) (x := j)
    as (wa & wb & Ha & Hdrive & Hb); try done.
  { intros j' Hj'. apply keeps_drive_joint. by apply elem_of_range. }
  { unfold range. apply elem_of_seq. lia. }
  apply drive_joint_returned in Hdrive as (x & v & Hx & Hv & Ht).
  exists x, v. split; [done|]. split; [done|].
  assert (follows n result w1 w2) as H12.
  { eapply (keeps_for_each n result (range n) (drive_joint result i));
      [|exact Hn1|exact Hloop].
    intros j' Hj'. apply keeps_drive_joint. by apply elem_of_range. }
  assert (length (move_group_joint_indices (planner w2)) = n) as Hn2.
  { by rewrite (follows_planner _ _ _ _ H12). }
  assert (follows n result w2 w') as Htail.
  { refine (keeps_bind n result do_scene_step
              (fun _ => if (i mod 4 =? 0)%nat then render else ret tt)
              (keeps_do_scene_step n result) _ w2 _ w' Hn2 Hrest).
    intros _. destruct (i mod 4 =? 0)%nat;
      [apply keeps_render|apply keeps_ret]. }
  eapply sent_after; [exact H1|].
  eapply sent_after; [exact Ha|].
  eapply sent_before; [|eapply follows_trans; [exact Hb|exact Htail]].
  exists [], []. by rewrite Ht, app_nil_r.
Qed.

Lemma follow_path_returned n result i j w w' :
  length (move_group_joint_indices (planner w)) = n ->
  follow_path result w = (Returned tt, w') ->
  i < length (position result) -> j < n ->
  exists x v,
    entry (position result) i j = Some x /\
    entry (velocity result) i j = Some v /\
    sent w w' [EvSetDriveTarget j x; EvSetDriveVelocityTarget j v].
Proof.
  intros Hn Hrun Hi Hj. unfold follow_path in Hrun.
  destruct (for_each_visits n result (range (length (position result)))
                            (follow_step result))
    with (w := w) (w' := w') (x := i)
    as (wa & wb & Ha & Hstep & Hb); try done.
  { intros i' _. apply keeps_follow_step. }
  { unfold range. apply elem_of_seq. lia. }
  destruct (follow_step_returned n result i j wa wb)
    as (x & v & Hx & Hv & Hs); try done.
  { by rewrite (follows_planner _ _ _ _ Ha). }
  exists x, v. split; [done|]. split; [done|].
  eapply sent_after; [exact Ha|]. eapply sent_before; eauto.
Qed.

(** C10. When following a planned trajectory, only the first
    [len(move_group_joint_indices)] active joints are sent drive targets,
    each a position or velocity entry of the planner's result; every other
    joint keeps its drive; and when [follow_path] returns, at every sample
    each of those first joints was sent its position target and then its
    velocity target. *)
Theorem follow_path_drives_move_group_only result w :
  let n := length (move_group_joint_indices (planner w)) in
  let out := follow_path result w in
  (exists evs,
      trace (snd out) = trace w ++ evs /\
      Forall (follow_event n result) evs) /\
  (forall j, n <= j -> active_joints (snd out) !! j = active_joints w !! j) /\
  length (active_joints (snd out)) = length (active_joints w) /\
  (fst out = Returned tt ->
   forall i j, i < length (position result) -> j < n ->
     exists x v,
       entry (position result) i j = Some x /\
       entry (velocity result) i j = Some v /\
       sent w (snd out) [EvSetDriveTarget j x; EvSetDriveVelocityTarget j v]).
Proof.
  intros n out.
  assert (follows n result w (snd out)) as Hf.
  { apply (keeps_follow_path n result w (fst out) (snd out) eq_refl).
    subst out. by destruct (follow_path result w). }
  split; [apply Hf|]. split; [apply Hf|]. split; [apply Hf|].
  intros Hret i j Hi Hj.
  apply (follow_path_returned n result i j w (snd out) eq_refl); try done.
  subst out. destruct (follow_path result w) as [o w'].
  simpl in *. by subst o.
Qed.

(** ** The planning wrappers *)

Lemma is_success_true result : is_success result = true <-> status result = Success.
Proof. unfold is_success. by destruct (status result). Qed.

Lemma is_success_false result :
  is_success result = false <-> status result <> Success.
Proof. unfold is_success. by destruct (status result). Qed.

Lemma status_name_listed s : In (status_name s) status_names.
Proof. destruct s; simpl; tauto. Qed.

(** [follow_path] sends no planning request. *)
Lemma follow_event_no_request n result (evs : list (Event Pose)) :
  Forall (follow_event n result) evs -> planner_requests evs = [].
Proof.
  induction 1 as [|e evs He _ IH]; [done|].
  unfold planner_requests in *. simpl.
  destruct e; simpl in *; try done.
Qed.

(** The wrapper around the sampling planner, one branch per status. *)
Lemma rrtconnect_unfold pose w :
  let qpos := get_qpos (phys w) in
  let answer := plan_qpos_to_pose pose qpos (1 / 250)%float (planner w) in
  let asked :=
    mkWorld (phys w) (robot_qf w) (active_joints w) (snd answer)
            (trace w ++ [EvPrint "plan_qpos_to_pose";
                         EvPlanQposToPose pose qpos (1 / 250)%float]) in
  move_to_pose_with_RRTConnect pose w =
    if is_success (fst answer) then
      match follow_path (fst answer) asked with
      | (Returned _, w') => (Returned 0%Z, w')
      | (Raised e, w') => (Raised e, w')
      end
    else
      (Returned (-1)%Z,
       mkWorld (phys w) (robot_qf w) (active_joints w) (snd answer)
               (trace asked ++ [EvPrint (status_name (status (fst answer)))])).
Proof.
  unfold move_to_pose_with_RRTConnect, bind, print, emit, get,
    call_plan_qpos_to_pose, ret.
  generalize (1 / 250)%float as dt. intros dt. simpl.
  destruct (plan_qpos_to_pose pose (get_qpos (phys w)) dt (planner w))
    as [result ps].
  simpl. rewrite <- app_assoc. simpl.
  destruct (is_success result); simpl; [|done].
  by destruct (follow_path result _) as [[[]|e] w'].
Qed.

(** The wrapper around the screw planner. *)
Lemma screw_unfold pose w :
  let qpos := get_qpos (phys w) in
  let answer := plan_screw pose qpos (1 / 250)%float (planner w) in
  let asked :=
    mkWorld (phys w) (robot_qf w) (active_joints w) (snd answer)
            (trace w ++ [EvPlanScrew pose qpos (1 / 250)%float]) in
  move_to_pose_with_screw pose w =
    if is_success (fst answer) then
      match follow_path (fst answer) asked with
      | (Returned _, w') => (Returned 0%Z, w')
      | (Raised e, w') => (Raised e, w')
      end
    else move_to_pose_with_RRTConnect pose asked.
Proof.
  unfold move_to_pose_with_screw, bind, get, call_plan_screw, ret.
  generalize (1 / 250)%float as dt. intros dt. simpl.
  destruct (plan_screw pose (get_qpos (phys w)) dt (planner w))
    as [result ps].
  simpl. destruct (is_success result); simpl; [|done].
  by destruct (follow_path result _) as [[[]|e] w'].
Qed.

(** What following a result adds to the trace, and what it returns. *)
Lemma follow_then_zero result w :
  let out :=
    match follow_path result w with
    | (Returned _, w') => (Returned 0%Z, w')
    | (Raised e, w') => (Raised e, w')
    end in
  (exists evs, trace (snd out) = trace w ++ evs /\ planner_requests evs = []) /\
  (fst out = Returned 0%Z \/ exists e, fst out = Raised e).
Proof.
  cbv zeta. destruct (follow_path result w) as [o w'] eqn:Hrun.
  destruct (follows_trace _ _ _ _
              (keeps_follow_path _ result w o w' eq_refl Hrun))
    as (evs & Ht & Hf).
  apply follow_event_no_request in Hf.
  destruct o as [[]|e]; simpl; (split; [exists evs; by split|eauto]).
Qed.

(** The requests of the sampling wrapper: exactly one, to
    [plan_qpos_to_pose]. *)
Lemma rrtconnect_trace pose w :
  let qpos := get_qpos (phys w) in
  let out := move_to_pose_with_RRTConnect pose w in
  (exists evs,
      trace (snd out) =
        trace w ++ [EvPrint "plan_qpos_to_pose";
                    EvPlanQposToPose pose qpos (1 / 250)%float] ++ evs /\
      planner_requests evs = []) /\
  (fst out = Returned 0%Z \/ fst out = Returned (-1)%Z \/
   exists e, fst out = Raised e).
Proof.
  intros qpos out. subst out. rewrite rrtconnect_unfold. simpl.
  destruct (is_success _).
  - match goal with |- context [follow_path ?r ?a] =>
      destruct (follow_then_zero r a) as [(evs & Ht & Hreq) Hret] end.
    split.
    + exists evs. split; [|done]. rewrite Ht. simpl.
      by rewrite <- app_assoc.
    + destruct Hret; eauto.
  - split; [|eauto]. simpl. eexists. split.
    + by rewrite <- app_assoc.
    + done.
Qed.

(** The code returned by the sampling wrapper is -1 exactly when the
    planner's status is not Success. *)
Lemma rrtconnect_code pose w :
  fst (move_to_pose_with_RRTConnect pose w) = Returned (-1)%Z <->
  status (fst (plan_qpos_to_pose pose (get_qpos (phys w)) (1 / 250)%float
                                 (planner w))) <> Success.
Proof.
  rewrite rrtconnect_unfold. cbv zeta. rewrite <- is_success_false.
  destruct (is_success _); simpl; [|done].
  match goal with |- context [follow_path ?r ?a] =>
    destruct (follow_path r a) as [[[]|e] w'] end; simpl; split; discriminate.
Qed.


(** X12. When the screw planner answers a target pose with a status other
    than Success, nothing of its result is executed (the robot, its drives
    and the scene are as before the request), and the wrapper
    [move_to_pose_with_screw] itself then runs the sampling wrapper on the
    same pose: the trace shows one request to [plan_screw] followed by one
    request to [plan_qpos_to_pose] for the same pose and start
    configuration, and no further planning request. *)
Theorem screw_failure_falls_back_in_wrapper pose w :
  let qpos := get_qpos (phys w) in
  let answer := plan_screw pose qpos (1 / 250)%float (planner w) in
  let asked :=
    mkWorld (phys w) (robot_qf w) (active_joints w) (snd answer)
            (trace w ++ [EvPlanScrew pose qpos (1 / 250)%float]) in
  status (fst answer) <> Success ->
  move_to_pose_with_screw pose w = move_to_pose_with_RRTConnect pose asked /\
  exists evs,
    trace (snd (move_to_pose_with_screw pose w)) =
      trace w ++ [EvPlanScrew pose qpos (1 / 250)%float;
                  EvPrint "plan_qpos_to_pose";
                  EvPlanQposToPose pose qpos (1 / 250)%float] ++ evs /\
    planner_requests evs = [].
Proof.
  intros qpos answer asked Hs. apply is_success_false in Hs.
  pose proof (screw_unfold pose w) as Hrun. cbv zeta in Hrun.
  fold qpos answer asked in Hrun. rewrite Hs in Hrun.
  split; [done|]. rewrite Hrun.
  destruct (rrtconnect_trace pose asked) as [(evs & Ht & Hreq) _].
  exists evs. split; [|done]. rewrite Ht.
  subst asked. simpl. by rewrite <- app_assoc.
Qed.

(** C6, as the code has it. [move_to_pose] takes a boolean [with_screw].
    When it is false only the sampling planner is asked.  When it is true
    the screw planner is asked first, and the sampling planner is asked too,
    for the same pose and start configuration, exactly when the screw
    status is not Success.  What is returned is the wrapper's integer code,
    0 or -1 (or an exception of [follow_path]), not a result dictionary; it
    is -1 exactly when the planner asked last answered with a status other
    than Success. *)
Theorem move_to_pose_dispatch pose (with_screw : bool) w :
  let qpos := get_qpos (phys w) in
  let screw_answer := plan_screw pose qpos (1 / 250)%float (planner w) in
  let screw := fst screw_answer in
  let sampling :=
    fst (plan_qpos_to_pose pose qpos (1 / 250)%float
           (if with_screw then snd screw_answer else planner w)) in
  let final :=
    if andb with_screw (is_success screw) then screw else sampling in
  let out := move_to_pose pose with_screw w in
  (exists evs,
      trace (snd out) = trace w ++ evs /\
      planner_requests evs =
        if with_screw then
          if is_success screw then [EvPlanScrew pose qpos (1 / 250)%float]
          else [EvPlanScrew pose qpos (1 / 250)%float;
                EvPlanQposToPose pose qpos (1 / 250)%float]
        else [EvPlanQposToPose pose qpos (1 / 250)%float]) /\
  (fst out = Returned 0%Z \/ fst out = Returned (-1)%Z \/
   exists e, fst out = Raised e) /\
  (fst out = Returned (-1)%Z <-> status final <> Success) /\
  move_to_pose pose true w = move_to_pose_with_screw pose w /\
  move_to_pose pose false w = move_to_pose_with_RRTConnect pose w.
Proof.
  intros qpos screw_answer screw sampling final out.
  pose proof (screw_unfold pose w) as Hscrew. cbv zeta in Hscrew.
  change (plan_screw pose (get_qpos (phys w)) (1 / 250)%float (planner w))
    with screw_answer in Hscrew.
  change (fst screw_answer) with screw in Hscrew.
  subst out. unfold move_to_pose. destruct with_screw.
  - rewrite Hscrew. subst final sampling. cbn [andb].
    destruct (is_success screw) eqn:Hs.
    + match goal with |- context [follow_path ?r ?a] =>
        destruct (follow_then_zero r a) as [(evs & Ht & Hreq) Hret];
        destruct (follow_path r a) as [o w'] end.
      cbn [trace] in Ht. apply is_success_true in Hs.
      split; [|split; [|split; [|done]]].
      * exists ([EvPlanScrew pose qpos (1 / 250)%float] ++ evs). split.
        -- rewrite Ht. by rewrite <- app_assoc.
        -- unfold planner_requests in *. simpl. by rewrite Hreq.
      * destruct Hret; eauto.
      * destruct o as [[]|e]; simpl; split; try discriminate; congruence.
    + set (asked :=
             mkWorld (phys w) (robot_qf w) (active_joints w)
                     (snd screw_answer)
                     (trace w ++ [EvPlanScrew pose (get_qpos (phys w))
                                              (1 / 250)%float])) in *.
      destruct (rrtconnect_trace pose asked) as [(evs & Ht & Hreq) Hret].
      split; [|split; [|split; [|done]]].
      * eexists. split.
        -- rewrite Ht. subst asked. cbn [trace phys].
           rewrite <- app_assoc. reflexivity.
        -- unfold planner_requests in *. simpl. by rewrite Hreq.
      * exact Hret.
      * apply (rrtconnect_code pose asked).
  - subst final sampling. cbn [andb].
    destruct (rrtconnect_trace pose w) as [(evs & Ht & Hreq) Hret].
    split; [|split; [|split; [|done]]].
    + eexists. split; [exact Ht|].
      unfold planner_requests in *. simpl. by rewrite Hreq.
    + exact Hret.
    + apply rrtconnect_code.
Qed.

End DemoSetupFacts.

(** ** The demo on the concrete scene *)

(** X12 on the scene: target 7 is refused by the screw planner
    (PlanningFailure) and the wrapper goes on with the sampling wrapper. *)
Lemma screw_failure_in_scene :
  move_to_pose_with_screw 7 Scene.initial =
    move_to_pose_with_RRTConnect 7
      (mkWorld 0 []
               [Scene.rest_joint; Scene.rest_joint; Scene.rest_joint] 1
               [EvPlanScrew 7 [0; 0; 0]%float (1 / 250)%float]).
Proof.
  refine (proj1 (screw_failure_falls_back_in_wrapper 7 Scene.initial _)).
  simpl. discriminate.
Defined.



(** C6 on the scene: with [with_screw] true and target 7 both planners are
    asked, and the value returned is the integer 0. *)
Lemma move_to_pose_screw_asks_both_planners :
  planner_requests (trace (snd (move_to_pose 7 true Scene.initial))) =
    [EvPlanScrew 7 [0; 0; 0]%float (1 / 250)%float;
     EvPlanQposToPose 7 [0; 0; 0]%float (1 / 250)%float] /\
  fst (move_to_pose 7 true Scene.initial) = Returned 0%Z /\
  ~ (exists request,
        planner_requests (trace (snd (move_to_pose 7 true Scene.initial))) =
          [request]).
Proof.
  split; [vm_compute; reflexivity|].
  split; [vm_compute; reflexivity|].
  intros [request Hone]. vm_compute in Hone. discriminate Hone.
Qed.

(** C10 on the scene: the finger (joint 2) keeps its drive, and joint 0 is
    sent the targets of sample 1. *)
Lemma follow_path_in_scene :
  active_joints (snd (follow_path Scene.success_result Scene.initial)) !! 2 =
    Some Scene.rest_joint /\
  exists x v,
    entry (position Scene.success_result) 1 0 = Some x /\
    entry (velocity Scene.success_result) 1 0 = Some v /\
    sent Scene.initial (snd (follow_path Scene.success_result Scene.initial))
         [EvSetDriveTarget 0 x; EvSetDriveVelocityTarget 0 v].
Proof.
  destruct (follow_path_drives_move_group_only
              Scene.success_result Scene.initial)
    as (_ & Hothers & _ & Hsent).
  split.
  - rewrite Hothers; [reflexivity|simpl; lia].
  - apply Hsent; [reflexivity|simpl; lia|simpl; lia].
Defined.


(** * Properties of the planning core as specified *)

Section InverseKinematicsFacts.
Import ArticulatedModel.
Context {Pose Link : Type}.
Variable limits : list JointLimits.
Variable forward_kinematics : Link -> Config -> Pose.
Variable pose_error : Pose -> Pose -> float.
Variable ik_update : Pose -> Link -> Config -> Config.

Local Abbreviation residual_of :=
  (residual forward_kinematics pose_error).
Local Abbreviation search :=
  (ik_search forward_kinematics pose_error ik_update).

Lemma within_limits_Forall2 q :
  within_limits limits q = true <->
  Forall2 (fun l x => (lower l <=? x)%float = true /\
                      (x <=? upper l)%float = true) limits q.
Proof.
  revert q. induction limits as [|l ls IH]; intros [|x q]; simpl.
  - split; [constructor|done].
  - split; [done|inversion 1].
  - split; [done|inversion 1].
  - rewrite !andb_true_iff, IH. split.
    + intros [[Hl Hu] Hq]. by constructor.
    + inversion 1; subst. tauto.
Qed.

Lemma ik_search_some target link tolerance n q q' :
  search target link tolerance n q = Some q' ->
  (residual_of target link q' <=? tolerance)%float = true /\
  exists k, k <= n /\ q' = Nat.iter k (ik_update target link) q.
Proof.
  revert q. induction n as [|n IH]; intros q; simpl;
    destruct (residual_of target link q <=? tolerance)%float eqn:Hq.
  - intros [= <-]. split; [done|]. exists 0. by split.
  - discriminate.
  - intros [= <-]. split; [done|]. exists 0. split; [lia|done].
  - intros Hs. destruct (IH _ Hs) as (Hres & k & Hk & ->).
    split; [done|]. exists (S k). split; [lia|].
    by rewrite Nat.iter_succ_r.
Qed.

Lemma ik_search_none target link tolerance n q :
  search target link tolerance n q = None ->
  forall k, k <= n ->
    (residual_of target link (Nat.iter k (ik_update target link) q)
       <=? tolerance)%float = false.
Proof.
  revert q. induction n as [|n IH]; intros q; simpl;
    destruct (residual_of target link q <=? tolerance)%float eqn:Hq;
    try discriminate.
  - intros _ k Hk. by replace k with 0 by lia.
  - intros Hs [|k] Hk; [done|].
    rewrite Nat.iter_succ_r. apply IH; [done|lia].
Qed.

(** C5. An inverse-kinematics call either returns a configuration that lies
    within every joint's [lower, upper] limits, whose residual is within
    tolerance and that is an iterate of the search itself (a solution out of
    range is rejected, never moved into range), or fails with IKFailure:
    then no iterate within [max_iterations] converged, or the converged one
    was out of range.  A pose that no configuration within the limits
    reaches within tolerance yields IKFailure. *)
Theorem inverse_kinematics_in_limits_or_failure
    target link seed max_iterations tolerance :
  let ik :=
    inverse_kinematics limits forward_kinematics pose_error ik_update
                       target link seed max_iterations tolerance in
  let iterate k := Nat.iter k (ik_update target link) seed in
  match ik with
  | inl q =>
      Forall2 (fun l x => (lower l <=? x)%float = true /\
                          (x <=? upper l)%float = true) limits q /\
      (residual_of target link q <=? tolerance)%float = true /\
      exists k, k <= max_iterations /\ q = iterate k
  | inr failure =>
      failure = IKFailure /\
      ((forall k, k <= max_iterations ->
          (residual_of target link (iterate k) <=? tolerance)%float = false) \/
       exists k, k <= max_iterations /\
         (residual_of target link (iterate k) <=? tolerance)%float = true /\
         within_limits limits (iterate k) = false)
  end /\
  ((forall q, within_limits limits q = true ->
      (residual_of target link q <=? tolerance)%float = false) ->
   ik = inr IKFailure).
Proof.
  intros ik iterate. subst ik. unfold inverse_kinematics.
  destruct (search target link tolerance max_iterations seed) as [q|] eqn:Hs.
  - destruct (ik_search_some _ _ _ _ _ _ Hs) as (Hres & k & Hk & Hq).
    destruct (within_limits limits q) eqn:Hlim.
    + split.
      * split; [by apply within_limits_Forall2|]. split; [done|]. by exists k.
      * intros Hfar. rewrite (Hfar q Hlim) in Hres. discriminate.
    + split; [|done]. split; [done|]. right. exists k.
      subst iterate. simpl. by rewrite <- Hq.
  - split; [|done]. split; [done|]. left.
    by apply ik_search_none.
Qed.

End InverseKinematicsFacts.

Section AttachedObjectFacts.
Import CollisionWorld.
Context {Pose : Type}.
Variable link_names : list string.
Variable link_pose : string -> Config -> Pose.
Variable pose_mul : Pose -> Pose -> Pose.

Lemma apply_op_other name (o : AttachedObject Pose) op w :
  touches name op = false ->
  attached w !! name = Some o ->
  attached (apply_op link_names w op) !! name = Some o.
Proof.
  destruct op as [name' link' offset'|name'|q]; simpl; intros Hop Hw.
  - apply String.eqb_neq in Hop. unfold attach.
    destruct (bool_decide _); simpl; [|done].
    by rewrite lookup_insert_ne.
  - apply String.eqb_neq in Hop. by rewrite lookup_delete_ne.
  - done.
Qed.

Lemma run_other name (o : AttachedObject Pose) ops w :
  Forall (fun op => touches name op = false) ops ->
  attached w !! name = Some o ->
  attached (run link_names ops w) !! name = Some o.
Proof.
  unfold run. intros Hops. revert w.
  induction Hops as [|op ops Hop _ IH]; intros w Hw; simpl; [done|].
  apply IH. by apply apply_op_other.
Qed.

(** C7. Once an object is attached to a link with an offset, then through
    every later change of the world that does not concern this object, and
    in every configuration the robot is placed in, the object's world pose
    is the pose of the link in the current configuration composed with the
    offset; it is computed from the link on each query (the world stores the
    link and the offset, no pose). *)
Theorem attached_pose_follows_link w w1 name link offset ops :
  attach link_names name link offset w = inl w1 ->
  Forall (fun op => touches name op = false) ops ->
  let w2 := run link_names ops w1 in
  attached_pose link_pose pose_mul w2 name =
    Some (pose_mul (link_pose link (qpos w2)) offset) /\
  (forall q,
      attached_pose link_pose pose_mul (set_qpos q w2) name =
        Some (pose_mul (link_pose link q) offset)) /\
  attached w2 !! name = Some (mkAttached Pose link offset).
Proof.
  intros Hattach Hops w2.
  assert (attached w2 !! name = Some (mkAttached Pose link offset)) as Hw2.
  { apply run_other; [done|].
    unfold attach in Hattach. destruct (bool_decide _); [|discriminate].
    injection Hattach as <-. simpl. by rewrite lookup_insert_eq. }
  unfold attached_pose. simpl. by rewrite Hw2.
Qed.

End AttachedObjectFacts.

(** C5 on the slider: target 2 is found by the search and rejected, being
    outside [0, 1]; target 0.5 is returned; and with the joint welded target
    2 is out of reach of every configuration. *)
Lemma inverse_kinematics_on_slider :
  ArticulatedModel.inverse_kinematics
    Scene.slider_limits Scene.slider_pose Scene.slider_error
    Scene.slider_update 0.5%float tt [0%float] 10 0.25%float
    = inl [0.5%float] /\
  ArticulatedModel.inverse_kinematics
    Scene.slider_limits Scene.slider_pose Scene.slider_error
    Scene.slider_update 2%float tt [0%float] 10 0.25%float
    = inr IKFailure /\
  ArticulatedModel.inverse_kinematics
    Scene.slider_limits Scene.welded_pose Scene.slider_error
    Scene.slider_update 2%float tt [0%float] 10 0.25%float
    = inr IKFailure.
Proof.
  split; [vm_compute; reflexivity|].
  split; [vm_compute; reflexivity|].
  refine (proj2 (inverse_kinematics_in_limits_or_failure
                   Scene.slider_limits Scene.welded_pose Scene.slider_error
                   Scene.slider_update 2%float tt [0%float] 10 0.25%float) _).
  intros q _. vm_compute. reflexivity.
Defined.

(** C7 on symbolic poses: a tool attached to the hand with offset [0.5]
    stays at [q ++ [0.5]] while another object is attached and detached and
    the robot is moved. *)
Lemma attached_tool_follows_hand :
  CollisionWorld.attached_pose Scene.word_link_pose app
    (CollisionWorld.run Scene.word_link_names
       [CollisionWorld.OpSetQpos [1; 2]%float;
        CollisionWorld.OpAttach "box" "panda_link5" [4%float];
        CollisionWorld.OpDetach "box";
        CollisionWorld.OpSetQpos [3; 1]%float]
       (CollisionWorld.mkState (list float) []
          {["tool" := CollisionWorld.mkAttached (list float)
                        "panda_hand" [0.5%float]]}))
    "tool"
  = Some ([3; 1; 0.5]%float).
Proof.
  refine (proj1 (attached_pose_follows_link
                   Scene.word_link_names Scene.word_link_pose app
                   Scene.empty_world _ "tool" "panda_hand" [0.5%float]
                   _ _ _)).
  - vm_compute. reflexivity.
  - repeat constructor.
Defined.


(** * Further properties of the demo layer *)

Section DemoSetupLoops.
Context {Pose Phys PState : Type}.
Context `{!Simulator Phys} `{!Planner Pose PState}.

Local Abbreviation W := (World Pose Phys PState).
Implicit Types (w : W) (result : PlanResult).

(** ** Loops *)

Lemma for_each_app {A} (xs ys : list A) (body : A -> M unit) w :
  for_each (xs ++ ys) body w =
    bind (for_each xs body) (fun _ => for_each ys body) w.
Proof.
  revert w. induction xs as [|x xs IH]; intros w; simpl.
  - done.
  - unfold bind. destruct (body x w) as [[[]|e] w1]; [|done].
    apply IH.
Qed.

(** A loop returns exactly when every turn does, provided whether a turn
    returns depends on the element only, under an invariant [I]. *)
Lemma for_each_returns_iff {A} (I : W -> Prop) (ok : A -> Prop)
    (body : A -> M unit) xs :
  (forall x w, x ∈ xs -> I w ->
     I (snd (body x w)) /\ (fst (body x w) = Returned tt <-> ok x)) ->
  forall w, I w ->
    I (snd (for_each xs body w)) /\
    (fst (for_each xs body w) = Returned tt <-> forall x, x ∈ xs -> ok x).
Proof.
  induction xs as [|x xs IH]; intros Hbody w Hw; simpl.
  - split; [done|]. split; [|reflexivity].
    intros _ y Hy. by apply elem_of_nil in Hy.
  - destruct (Hbody x w (list_elem_of_here _ _) Hw) as [Hw1 Hx].
    unfold bind. destruct (body x w) as [[[]|e] w1]; simpl in *.
    + destruct (IH (fun y w' Hy => Hbody y w' (list_elem_of_further _ _ _ Hy))
                   w1 Hw1) as [Hw2 Hrest].
      split; [done|]. rewrite Hrest. split.
      * intros Hxs y [->|Hy]%elem_of_cons; [by apply Hx|auto].
      * intros Hall y Hy. apply Hall. by right.
    + split; [done|]. split; [discriminate|].
      intros Hall. apply Hx, Hall. by left.
Qed.

(** ** When [follow_path] returns *)

Lemma drive_joint_outcome result i j w :
  length (active_joints (snd (drive_joint result i j w))) =
    length (active_joints w) /\
  planner (snd (drive_joint result i j w)) = planner w /\
  (fst (drive_joint result i j w) = Returned tt <->
   j < length (active_joints w) /\
   is_Some (entry (position result) i j) /\
   is_Some (entry (velocity result) i j)).
Proof.
  unfold drive_joint, entry, bind, get, index.
  destruct (active_joints w !! j) as [jt|] eqn:Ejt; simpl.
  2: { apply lookup_ge_None in Ejt.
       split; [done|]. split; [done|]. split; [discriminate|]. lia. }
  apply lookup_lt_Some in Ejt as Hlt.
  destruct (position result !! i) as [row|]; simpl.
  2: { split; [done|]. split; [done|].
       split; [discriminate|]. by intros (_ & [] & _). }
  destruct (row !! j) as [x|]; simpl.
  2: { split; [done|]. split; [done|].
       split; [discriminate|]. by intros (_ & [] & _). }
  rewrite list_lookup_alter_eq, Ejt. simpl.
  destruct (velocity result !! i) as [vrow|]; simpl.
  2: { rewrite length_alter. split; [done|]. split; [done|].
       split; [discriminate|]. by intros (_ & _ & []). }
  destruct (vrow !! j) as [v|]; simpl.
  2: { rewrite length_alter. split; [done|]. split; [done|].
       split; [discriminate|]. by intros (_ & _ & []). }
  rewrite !length_alter. split; [done|]. split; [done|].
  split; [|done]. intros _. eauto.
Qed.

(** One turn of the outer loop, as a function of the world the inner loop
    leaves. *)
Lemma follow_step_unfold result i w :
  follow_step result i w =
    let qf := compute_passive_force (phys w) in
    match
      for_each (range (length (move_group_joint_indices (planner w))))
               (drive_joint result i)
               (mkWorld (phys w) qf (active_joints w) (planner w)
                        (trace w ++ [EvSetQf qf]))
    with
    | (Returned _, w1) =>
        (Returned tt,
         mkWorld (scene_step (active_joints w1) (robot_qf w1) (phys w1))
                 (robot_qf w1) (active_joints w1) (planner w1)
                 (trace w1 ++ EvStep ::
                    if (i mod 4 =? 0)%nat then [EvUpdateRender; EvRender]
                    else []))
    | (Raised e, w1) => (Raised e, w1)
    end.
Proof.
  unfold follow_step, bind, get, robot_set_qf, do_scene_step, render, emit,
    ret.
  cbn [phys robot_qf active_joints planner trace].
  destruct (for_each _ _ _) as [[[]|e] w1]; [|done].
  destruct (i mod 4 =? 0)%nat; unfold bind;
    cbn [phys robot_qf active_joints planner trace];
    by rewrite <- ?app_assoc.
Qed.

Lemma follow_step_outcome result i w :
  let n := length (move_group_joint_indices (planner w)) in
  length (active_joints (snd (follow_step result i w))) =
    length (active_joints w) /\
  planner (snd (follow_step result i w)) = planner w /\
  (fst (follow_step result i w) = Returned tt <->
   forall j, j < n ->
     j < length (active_joints w) /\
     is_Some (entry (position result) i j) /\
     is_Some (entry (velocity result) i j)).
Proof.
  intros n. rewrite follow_step_unfold. cbv zeta. fold n.
  set (w0 := mkWorld _ _ _ _ _).
  destruct (for_each_returns_iff
              (fun w' => length (active_joints w') = length (active_joints w)
                         /\ planner w' = planner w)
              (fun j => j < length (active_joints w) /\
                        is_Some (entry (position result) i j) /\
                        is_Some (entry (velocity result) i j))
              (drive_joint result i) (range n)) with (w := w0)
    as [[Hlen Hpl] Hret].
  { intros j w' _ [Hl Hp].
    destruct (drive_joint_outcome result i j w') as (Hl' & Hp' & Hiff).
    rewrite Hl', Hp', Hiff, Hl. done. }
  { done. }
  assert (forall j, j < n <-> j ∈ range n) as Hin.
  { intros j. unfold range. rewrite elem_of_seq. lia. }
  destruct (for_each (range n) (drive_joint result i) w0) as [[[]|e] w1];
    cbn [fst snd active_joints planner] in *.
  - split; [done|]. split; [done|]. split; [|done].
    intros _ j Hj. by apply Hret, Hin.
  - split; [done|]. split; [done|]. split; [discriminate|].
    intros Hall. apply Hret. intros j Hj. by apply Hall, Hin.
Qed.

(** [follow_path] returns exactly when the result fits the robot; the only
    exception it can raise is [IndexError]. *)
Lemma follow_path_outcome result w :
  length (active_joints (snd (follow_path result w))) =
    length (active_joints w) /\
  planner (snd (follow_path result w)) = planner w /\
  (fst (follow_path result w) = Returned tt <->
   fits (length (move_group_joint_indices (planner w)))
        (length (active_joints w)) result).
Proof.
  unfold follow_path, fits.
  destruct (for_each_returns_iff
              (fun w' => length (active_joints w') = length (active_joints w)
                         /\ planner w' = planner w)
              (fun i => forall j,
                 j < length (move_group_joint_indices (planner w)) ->
                 j < length (active_joints w) /\
                 is_Some (entry (position result) i j) /\
                 is_Some (entry (velocity result) i j))
              (follow_step result) (range (length (position result))))
    with (w := w) as [[Hlen Hpl] Hret].
  { intros i w' _ [Hl Hp].
    destruct (follow_step_outcome result i w') as (Hl' & Hp' & Hiff).
    rewrite Hl', Hp', Hiff, Hl, Hp. done. }
  { done. }
  split; [done|]. split; [done|]. rewrite Hret. split.
  - intros Hall i j Hi Hj. apply Hall; [|done].
    unfold range. apply elem_of_seq. lia.
  - intros Hall i Hi j Hj. apply Hall; [|done].
    unfold range in Hi. apply elem_of_seq in Hi. lia.
Qed.

(** ** What a returning [follow_path] has done *)

Lemma drive_joint_returned_world result i j w w' :
  drive_joint result i j w = (Returned tt, w') ->
  exists jt x v,
    active_joints w !! j = Some jt /\
    entry (position result) i j = Some x /\
    entry (velocity result) i j = Some v /\
    phys w' = phys w /\ robot_qf w' = robot_qf w /\ planner w' = planner w /\
    trace w' = trace w ++ [EvSetDriveTarget j x; EvSetDriveVelocityTarget j v] /\
    active_joints w' =
      <[j := mkJoint x v (stiffness jt) (damping jt)]> (active_joints w).
Proof.
  unfold drive_joint, entry, bind, get, index.
  destruct (active_joints w !! j) as [jt|] eqn:Ejt; simpl; [|discriminate].
  destruct (position result !! i) as [row|]; simpl; [|discriminate].
  destruct (row !! j) as [x|]; simpl; [|discriminate].
  rewrite list_lookup_alter_eq, Ejt. simpl.
  destruct (velocity result !! i) as [vrow|]; simpl; [|discriminate].
  destruct (vrow !! j) as [v|]; simpl; [|discriminate].
  intros [= <-]. exists jt, x, v. simpl.
  repeat (split; [done|]). split; [by rewrite <- app_assoc|].
  apply list_eq. intros j'. destruct (decide (j = j')) as [<-|Hne].
  - rewrite !list_lookup_alter_eq, Ejt.
    rewrite list_lookup_insert_eq by (by eapply lookup_lt_Some).
    done.
  - by rewrite !list_lookup_alter_ne, list_lookup_insert_ne.
Qed.

(** The inner loop over the joints [a, a + k). *)
Lemma drive_loop_returned result i k : forall a w w',
  for_each (seq a k) (drive_joint result i) w = (Returned tt, w') ->
  phys w' = phys w /\ robot_qf w' = robot_qf w /\ planner w' = planner w /\
  (exists evs,
      trace w' = trace w ++ evs /\
      Forall (fun e => is_drive_command e = true) evs /\
      length evs = 2 * k) /\
  (forall j, a <= j < a + k ->
     exists jt x v,
       active_joints w !! j = Some jt /\
       entry (position result) i j = Some x /\
       entry (velocity result) i j = Some v /\
       active_joints w' !! j =
         Some (mkJoint x v (stiffness jt) (damping jt))) /\
  (forall j, ~ a <= j < a + k ->
     active_joints w' !! j = active_joints w !! j).
Proof.
  induction k as [|k IH]; intros a w w'; simpl.
  - intros [= <-]. repeat (split; [done|]). split.
    + exists []. by rewrite app_nil_r.
    + split; [lia|done].
  - intros Hrun. apply bind_returned in Hrun as ([] & w1 & Hfirst & Hrest).
    apply drive_joint_returned_world in Hfirst
      as (jt & x & v & Hjt & Hx & Hv & Hph & Hqf & Hpl & Htr & Hjs).
    destruct (IH _ _ _ Hrest)
      as (Hph' & Hqf' & Hpl' & (evs & Htr' & Hdr & Hlen) & Hin & Hout).
    split; [congruence|]. split; [congruence|]. split; [congruence|].
    split; [|split].
    + exists ([EvSetDriveTarget a x; EvSetDriveVelocityTarget a v] ++ evs).
      split; [by rewrite Htr', Htr, <- app_assoc|].
      split; [by repeat constructor|]. simpl. lia.
    + intros j Hj. destruct (decide (j = a)) as [->|Hne].
      * exists jt, x, v. repeat (split; [done|]).
        rewrite Hout by lia. rewrite Hjs.
        by rewrite list_lookup_insert_eq by (by eapply lookup_lt_Some).
      * destruct (Hin j) as (jt' & x' & v' & Hjt' & Hx' & Hv' & Hj'); [lia|].
        exists jt', x', v'. repeat (split; [done|]).
        by rewrite Hjs, list_lookup_insert_ne in Hjt'.
    + intros j Hj. rewrite Hout by lia.
      rewrite Hjs. apply list_lookup_insert_ne. lia.
Qed.

Lemma follow_step_returned_world result i w w' :
  follow_step result i w = (Returned tt, w') ->
  let n := length (move_group_joint_indices (planner w)) in
  planner w' = planner w /\
  (exists drives,
      trace w' =
        trace w ++ [EvSetQf (compute_passive_force (phys w))] ++ drives ++
          EvStep :: (if (i mod 4 =? 0)%nat then [EvUpdateRender; EvRender]
                     else []) /\
      Forall (fun e => is_drive_command e = true) drives /\
      length drives = 2 * n) /\
  (forall j, j < n ->
     exists jt x v,
       active_joints w !! j = Some jt /\
       entry (position result) i j = Some x /\
       entry (velocity result) i j = Some v /\
       active_joints w' !! j =
         Some (mkJoint x v (stiffness jt) (damping jt))) /\
  (forall j, n <= j -> active_joints w' !! j = active_joints w !! j).
Proof.
  rewrite follow_step_unfold. cbv zeta.
  destruct (for_each _ _ _) as [[[]|e] w1] eqn:Hloop; [|discriminate].
  intros [= <-]. cbn [planner trace active_joints].
  apply drive_loop_returned in Hloop
    as (_ & _ & Hpl & (evs & Htr & Hdr & Hlen) & Hin & Hout).
  cbn [phys robot_qf planner trace active_joints] in *.
  split; [done|]. split; [|split].
  - exists evs. split; [|done]. rewrite Htr. by rewrite <- !app_assoc.
  - intros j Hj. apply Hin. lia.
  - intros j Hj. apply Hout. lia.
Qed.

(** ** Counting commands *)

Lemma count_events_app (p : Event Pose -> bool) evs1 evs2 :
  count_events p (evs1 ++ evs2) = count_events p evs1 + count_events p evs2.
Proof. unfold count_events. by rewrite List.filter_app, length_app. Qed.

Lemma count_events_drives (p : Event Pose -> bool) evs :
  Forall (fun e => is_drive_command e = true) evs ->
  (forall e, is_drive_command e = true -> p e = false) ->
  count_events p evs = 0.
Proof.
  intros Hdr Hp. unfold count_events.
  induction Hdr as [|e evs He _ IH]; simpl; [done|].
  by rewrite (Hp e He).
Qed.

Lemma count_drive_commands (evs : list (Event Pose)) :
  Forall (fun e => is_drive_command e = true) evs ->
  count_events is_drive_command evs = length evs.
Proof.
  unfold count_events.
  induction 1 as [|e evs He _ IH]; simpl; [done|].
  rewrite He. simpl. by rewrite IH.
Qed.

Lemma render_turns_cons i steps :
  render_turns (i :: steps) =
    (if (i mod 4 =? 0)%nat then 1 else 0) + render_turns steps.
Proof.
  unfold render_turns. cbn [List.filter].
  by destruct (i mod 4 =? 0)%nat.
Qed.

Lemma render_turns_range N : render_turns (range N) = (N + 3) / 4.
Proof.
  unfold range. induction N as [|N IH].
  - reflexivity.
  - rewrite seq_S, Nat.add_0_l. unfold render_turns in *.
    rewrite List.filter_app, length_app, IH. cbn [List.filter].
    destruct (N mod 4 =? 0)%nat eqn:Hmod; cbn [length].
    + apply Nat.eqb_eq in Hmod.
      pose proof (Nat.div_mod_eq N 4). pose proof (Nat.div_mod_eq (N + 3) 4).
      pose proof (Nat.div_mod_eq (S N + 3) 4).
      pose proof (Nat.mod_upper_bound (N + 3) 4).
      pose proof (Nat.mod_upper_bound (S N + 3) 4). lia.
    + apply Nat.eqb_neq in Hmod.
      pose proof (Nat.div_mod_eq N 4). pose proof (Nat.div_mod_eq (N + 3) 4).
      pose proof (Nat.div_mod_eq (S N + 3) 4).
      pose proof (Nat.mod_upper_bound N 4).
      pose proof (Nat.mod_upper_bound (N + 3) 4).
      pose proof (Nat.mod_upper_bound (S N + 3) 4). lia.
Qed.

(** The outer loop over the samples [a, a + k). *)
Lemma follow_loop_counts result k : forall a w w',
  for_each (seq a k) (follow_step result) w = (Returned tt, w') ->
  planner w' = planner w /\
  exists evs,
    trace w' = trace w ++ evs /\
    count_events is_set_qf evs = k /\
    count_events is_step evs = k /\
    count_events is_update_render evs = render_turns (seq a k) /\
    count_events is_render evs = render_turns (seq a k) /\
    count_events is_drive_command evs =
      2 * length (move_group_joint_indices (planner w)) * k.
Proof.
  induction k as [|k IH]; intros a w w'; cbn [seq for_each].
  - intros [= <-]. split; [done|]. exists [].
    rewrite app_nil_r. repeat split; try done; unfold count_events; simpl; lia.
  - intros Hrun. apply bind_returned in Hrun as ([] & w1 & Hfirst & Hrest).
    apply follow_step_returned_world in Hfirst
      as (Hpl & (drives & Htr & Hdr & Hlen) & _ & _).
    destruct (IH _ _ _ Hrest)
      as (Hpl' & evs & Htr' & Hqf & Hst & Hup & Hre & Hdc).
    split; [congruence|].
    eexists. split; [rewrite Htr', Htr, <- app_assoc; reflexivity|].
    rewrite render_turns_cons, Hpl in *.
    rewrite !count_events_app, Hqf, Hst, Hup, Hre, Hdc.
    rewrite !(count_events_drives _ drives Hdr) by (by intros []).
    rewrite (count_drive_commands drives Hdr), Hlen.
    unfold count_events.
    destruct (a mod 4 =? 0)%nat; simpl; repeat split; lia.
Qed.

(** The drives after the last sample. *)
Lemma follow_path_last_sample result w w' m :
  follow_path result w = (Returned tt, w') ->
  length (position result) = S m ->
  forall j, j < length (move_group_joint_indices (planner w)) ->
    exists jt',
      active_joints w' !! j = Some jt' /\
      entry (position result) m j = Some (drive_target jt') /\
      entry (velocity result) m j = Some (drive_velocity_target jt').
Proof.
  unfold follow_path, range. intros Hrun Hlen.
  rewrite Hlen, seq_S, Nat.add_0_l, for_each_app in Hrun.
  apply bind_returned in Hrun as ([] & w1 & Hinit & Hlast).
  apply follow_loop_counts in Hinit as [Hpl _].
  cbn [for_each] in Hlast.
  apply bind_returned in Hlast as ([] & w2 & Hstep & [= <-]).
  apply follow_step_returned_world in Hstep as (_ & _ & Hin & _).
  rewrite Hpl in Hin. intros j Hj.
  destruct (Hin j Hj) as (jt & x & v & _ & Hx & Hv & Hjt').
  eexists. split; [exact Hjt'|]. done.
Qed.

(** ** The gripper *)

Lemma gripper_step_unfold i w :
  gripper_step i w =
    let qf := compute_passive_force (phys w) in
    (Returned tt,
     mkWorld (scene_step (active_joints w) qf (phys w)) qf
             (active_joints w) (planner w)
             (trace w ++ EvSetQf qf :: EvStep ::
                if (i mod 4 =? 0)%nat then [EvUpdateRender; EvRender]
                else [])).
Proof.
  unfold gripper_step, bind, get, robot_set_qf, do_scene_step, render, emit,
    ret.
  cbn [phys robot_qf active_joints planner trace].
  destruct (i mod 4 =? 0)%nat; unfold bind;
    cbn [phys robot_qf active_joints planner trace];
    by rewrite <- ?app_assoc.
Qed.

(** The hundred simulation steps of [set_gripper], for the turns
    [a, a + k). *)
Lemma gripper_loop k : forall a w,
  exists w',
    for_each (seq a k) gripper_step w = (Returned tt, w') /\
    active_joints w' = active_joints w /\ planner w' = planner w /\
    exists evs,
      trace w' = trace w ++ evs /\
      count_events is_set_qf evs = k /\
      count_events is_step evs = k /\
      count_events is_update_render evs = render_turns (seq a k) /\
      count_events is_render evs = render_turns (seq a k) /\
      count_events is_drive_command evs = 0.
Proof.
  induction k as [|k IH]; intros a w; cbn [seq for_each].
  - exists w. repeat (split; [done|]). exists [].
    by rewrite app_nil_r.
  - unfold bind. rewrite gripper_step_unfold. cbv zeta.
    set (w1 := mkWorld _ _ _ _ _).
    destruct (IH (S a) w1)
      as (w' & Hrun & Hjs & Hpl & evs & Htr & Hqf & Hst & Hup & Hre & Hdc).
    exists w'. split; [done|]. split; [done|]. split; [done|].
    eexists. split; [rewrite Htr; subst w1; cbn [trace];
                     rewrite <- app_assoc; reflexivity|].
    rewrite render_turns_cons.
    rewrite !count_events_app, Hqf, Hst, Hup, Hre, Hdc.
    unfold count_events.
    destruct (a mod 4 =? 0)%nat; simpl; repeat split; lia.
Qed.

(** Writing the target [pos] to the joints [a, a + k). *)
Lemma target_loop pos k : forall a w,
  exists w',
    for_each (seq a k) (fun j => joint_set_drive_target j pos) w =
      (Returned tt, w') /\
    phys w' = phys w /\ robot_qf w' = robot_qf w /\ planner w' = planner w /\
    trace w' = trace w ++ map (fun j => EvSetDriveTarget j pos) (seq a k) /\
    forall j,
      active_joints w' !! j =
        if decide (a <= j < a + k)
        then set_drive_target pos <$> active_joints w !! j
        else active_joints w !! j.
Proof.
  induction k as [|k IH]; intros a w; cbn [seq for_each map].
  - exists w. repeat (split; [done|]). split; [by rewrite app_nil_r|].
    intros j. case_decide; [lia|done].
  - unfold bind, joint_set_drive_target at 1.
    set (w1 := mkWorld _ _ _ _ _).
    destruct (IH (S a) w1) as (w' & Hrun & Hph & Hqf & Hpl & Htr & Hjs).
    exists w'. split; [done|]. repeat (split; [done|]).
    split; [rewrite Htr; subst w1; cbn [trace]; by rewrite <- app_assoc|].
    intros j. rewrite Hjs. subst w1. cbn [active_joints].
    destruct (decide (j = a)) as [->|Hne].
    + rewrite list_lookup_alter_eq. repeat case_decide; try lia. done.
    + rewrite list_lookup_alter_ne by done.
      repeat case_decide; try lia; done.
Qed.

Lemma set_gripper_world pos w :
  exists w',
    set_gripper pos w = (Returned tt, w') /\
    planner w' = planner w /\
    (forall j,
        active_joints w' !! j =
          (fun jt => if decide (length (active_joints w) - 2 <= j)
                     then set_drive_target pos jt else jt)
            <$> active_joints w !! j) /\
    exists evs,
      trace w' = trace w ++ evs /\
      count_events is_set_qf evs = 100 /\
      count_events is_step evs = 100 /\
      count_events is_update_render evs = 25 /\
      count_events is_render evs = 25 /\
      count_events is_drive_command evs = length (active_joints w) `min` 2.
Proof.
  unfold set_gripper, bind, get, last_two, range.
  set (L := length (active_joints w)).
  destruct (target_loop pos (L - (L - 2)) (L - 2) w)
    as (w1 & Hrun1 & Hph & Hqf & Hpl & Htr & Hjs).
  rewrite Hrun1.
  destruct (gripper_loop 100 0 w1)
    as (w' & Hrun2 & Hjs' & Hpl' & evs & Htr' & Hc1 & Hc2 & Hc3 & Hc4 & Hc5).
  rewrite Hrun2. exists w'. split; [done|]. split; [congruence|]. split.
  - intros j. rewrite Hjs', Hjs.
    destruct (active_joints w !! j) as [jt|] eqn:Ejt; simpl.
    + apply lookup_lt_Some in Ejt. fold L in Ejt.
      repeat case_decide; try lia; done.
    + by case_decide.
  - eexists. split; [rewrite Htr', Htr, <- app_assoc; reflexivity|].
    rewrite !count_events_app, Hc1, Hc2, Hc3, Hc4, Hc5.
    assert (forall (p : Event Pose -> bool) b js,
              (forall j, p (EvSetDriveTarget j pos) = b) ->
              count_events p (map (fun j => EvSetDriveTarget j pos) js) =
                if b then length js else 0) as Hmap.
    { intros p b js Hp. unfold count_events.
      induction js as [|j js IH]; simpl; [by destruct b|].
      rewrite Hp. destruct b; simpl; by rewrite IH. }
    rewrite (Hmap is_set_qf false), (Hmap is_step false),
      (Hmap is_update_render false), (Hmap is_render false),
      (Hmap is_drive_command true) by done.
    rewrite length_seq. repeat split; lia.
Qed.

(** ** Statements *)

(** X1. [follow_path] returns normally exactly when the result has a
    position and a velocity entry for every sample and every move-group
    joint and the robot has that many active joints; otherwise it raises
    [IndexError]. *)
Theorem follow_path_returns_iff_fits result w :
  let n := length (move_group_joint_indices (planner w)) in
  let L := length (active_joints w) in
  (fst (follow_path result w) = Returned tt <-> fits n L result) /\
  (~ fits n L result -> fst (follow_path result w) = Raised IndexError).
Proof.
  intros n L. destruct (follow_path_outcome result w) as (_ & _ & Hiff).
  split; [exact Hiff|]. intros Hno.
  destruct (fst (follow_path result w)) as [[]|[]]; [|done].
  exfalso. by apply Hno, Hiff.
Qed.


(** X3. After a [follow_path] that returns on a non-empty trajectory, the
    drive of each of the first [len(move_group_joint_indices)] active joints
    (joint [j] for [j] below that length) holds the position and the
    velocity of the last sample in column [j]. *)
Theorem follow_path_ends_on_last_sample result w w' :
  follow_path result w = (Returned tt, w') ->
  0 < length (position result) ->
  forall j, j < length (move_group_joint_indices (planner w)) ->
    exists jt',
      active_joints w' !! j = Some jt' /\
      entry (position result) (length (position result) - 1) j =
        Some (drive_target jt') /\
      entry (velocity result) (length (position result) - 1) j =
        Some (drive_velocity_target jt').
Proof.
  intros Hrun Hpos j Hj.
  destruct (length (position result)) as [|m] eqn:Hlen; [lia|].
  replace (S m - 1) with m by lia.
  by apply (follow_path_last_sample result w w' m).
Qed.

(** X4. Whatever its outcome, [follow_path] leaves the planner, the number
    of active joints and every joint's stiffness and damping as they
    were. *)
Theorem follow_path_keeps_gains result w :
  let out := follow_path result w in
  planner (snd out) = planner w /\
  length (active_joints (snd out)) = length (active_joints w) /\
  forall j jt, active_joints w !! j = Some jt ->
    exists jt', active_joints (snd out) !! j = Some jt' /\
                stiffness jt' = stiffness jt /\ damping jt' = damping jt.
Proof.
  intros out.
  assert (follows (length (move_group_joint_indices (planner w))) result
                  w (snd out)) as Hf.
  { apply (keeps_follow_path _ result w (fst out) (snd out) eq_refl).
    subst out. by destruct (follow_path result w). }
  split; [apply Hf|]. split; [apply Hf|]. apply Hf.
Qed.

(** The trace of the stepping loop of [set_gripper], turn by turn. *)
Lemma gripper_loop_trace k : forall a w,
  exists qfs,
    length qfs = k /\
    trace (snd (for_each (seq a k) gripper_step w)) =
      trace w ++ concat (zip_with turn_events (seq a k) qfs).
Proof.
  induction k as [|k IH]; intros a w; cbn [seq for_each].
  - exists []. split; [done|]. simpl. by rewrite app_nil_r.
  - unfold bind. rewrite gripper_step_unfold. cbv beta iota zeta.
    match goal with |- context [for_each _ _ ?w1] =>
      destruct (IH (S a) w1) as (qfs & Hlen & Htr) end.
    exists (compute_passive_force (phys w) :: qfs).
    split; [simpl; by rewrite Hlen|].
    rewrite Htr. cbn [trace zip_with concat]. unfold turn_events at 2.
    by rewrite <- app_assoc.
Qed.

(** X5. [set_gripper(pos)] never raises.  It first writes [pos] as drive
    target of the last two active joints, in index order (of all of them
    when there are fewer than three), and changes nothing else of any joint
    nor the planner; only then does it step the scene 100 times, each step
    preceded by setting the passive force and, on every fourth turn,
    followed by the two render calls (25 renders). *)
Theorem set_gripper_sets_last_two pos w :
  let out := set_gripper pos w in
  let L := length (active_joints w) in
  fst out = Returned tt /\
  planner (snd out) = planner w /\
  length (active_joints (snd out)) = L /\
  (forall j jt, active_joints w !! j = Some jt ->
     active_joints (snd out) !! j =
       Some (if decide (L - 2 <= j) then set_drive_target pos jt else jt)) /\
  exists evs,
    trace (snd out) = trace w ++ evs /\
    (exists qfs,
        length qfs = 100 /\
        evs = map (fun j => EvSetDriveTarget j pos) (last_two L) ++
              concat (zip_with turn_events (range 100) qfs)) /\
    count_events is_set_qf evs = 100 /\
    count_events is_step evs = 100 /\
    count_events is_update_render evs = 25 /\
    count_events is_render evs = 25 /\
    count_events is_drive_command evs = L `min` 2.
Proof.
  intros out L.
  assert (exists qfs,
             length qfs = 100 /\
             trace (snd out) =
               trace w ++ map (fun j => EvSetDriveTarget j pos) (last_two L) ++
                 concat (zip_with turn_events (range 100) qfs)) as Horder.
  { subst out. unfold set_gripper, bind, get. fold L.
    destruct (target_loop pos (L - (L - 2)) (L - 2) w)
      as (w1 & Hrun1 & _ & _ & _ & Htr1 & _).
    unfold last_two. rewrite Hrun1.
    destruct (gripper_loop_trace 100 0 w1) as (qfs & Hlen & Htr).
    exists qfs. split; [done|].
    unfold range. rewrite Htr, Htr1. by rewrite <- app_assoc. }
  subst out.
  destruct (set_gripper_world pos w) as (w' & Hrun & Hpl & Hjs & Hev).
  rewrite Hrun in Horder |- *.
  cbn [fst snd] in *. split; [done|]. split; [done|]. split; [|split].
  - apply Nat.le_antisymm.
    + destruct (decide (length (active_joints w') <= L)) as [|Hgt]; [done|].
      destruct (lookup_lt_is_Some_2 (active_joints w') L) as [jt Hjt]; [lia|].
      rewrite Hjs, (lookup_ge_None_2 (active_joints w) L) in Hjt by done.
      discriminate.
    + destruct (decide (L <= length (active_joints w'))) as [|Hgt]; [done|].
      destruct (lookup_lt_is_Some_2 (active_joints w)
                  (length (active_joints w'))) as [jt Hjt]; [unfold L; lia|].
      pose proof (Hjs (length (active_joints w'))) as Hnew.
      rewrite Hjt, lookup_ge_None_2 in Hnew by done. discriminate.
  - intros j jt Hjt. by rewrite Hjs, Hjt.
  - destruct Hev as (evs & Htr & Hcounts).
    exists evs. split; [done|]. split; [|done].
    destruct Horder as (qfs & Hlen & Htr').
    exists qfs. split; [done|].
    rewrite Htr in Htr'. by apply app_inv_head in Htr'.
Qed.

(** X6. A grip set by [set_gripper(pos)] is held while a path is followed:
    every one of the last two active joints whose index is at least
    [len(move_group_joint_indices)] still has the drive target [pos] after
    [follow_path], whatever its outcome. *)
Theorem grip_held_while_following pos result w j jt :
  length (move_group_joint_indices (planner w)) <= j ->
  length (active_joints w) - 2 <= j ->
  active_joints w !! j = Some jt ->
  active_joints (snd (follow_path result (snd (set_gripper pos w)))) !! j =
    Some (set_drive_target pos jt).
Proof.
  intros Hn HL Hjt.
  destruct (set_gripper_world pos w) as (w1 & -> & Hpl & Hjs & _).
  cbn [snd].
  destruct (follow_path result w1) as [o w2] eqn:Hrun. cbn [snd].
  pose proof (keeps_follow_path _ result w1 o w2 eq_refl Hrun) as Hf.
  rewrite (follows_others _ _ _ _ Hf) by (by rewrite Hpl).
  rewrite Hjs, Hjt. simpl. by case_decide.
Qed.

(** X8. Two [set_gripper] calls in a row leave the joints as the second
    alone would: the later target wins. *)
Theorem set_gripper_last_write_wins pos1 pos2 w :
  active_joints (snd (set_gripper pos2 (snd (set_gripper pos1 w)))) =
    active_joints (snd (set_gripper pos2 w)).
Proof.
  destruct (set_gripper_world pos1 w) as (w1 & -> & _ & Hjs1 & _).
  cbn [snd].
  destruct (set_gripper_world pos2 w1) as (w2 & -> & _ & Hjs2 & _).
  destruct (set_gripper_world pos2 w) as (w3 & -> & _ & Hjs3 & _).
  cbn [snd].
  assert (length (active_joints w1) = length (active_joints w)) as Hlen.
  { apply Nat.le_antisymm.
    - destruct (decide (length (active_joints w1)
                        <= length (active_joints w))) as [|Hgt]; [done|].
      destruct (lookup_lt_is_Some_2 (active_joints w1)
                  (length (active_joints w))) as [jt Hjt]; [lia|].
      rewrite Hjs1, lookup_ge_None_2 in Hjt by done. discriminate.
    - destruct (decide (length (active_joints w)
                        <= length (active_joints w1))) as [|Hgt]; [done|].
      destruct (lookup_lt_is_Some_2 (active_joints w)
                  (length (active_joints w1))) as [jt Hjt]; [lia|].
      pose proof (Hjs1 (length (active_joints w1))) as Hnew.
      rewrite Hjt, lookup_ge_None_2 in Hnew by done. discriminate. }
  apply list_eq. intros j. rewrite Hjs2, Hjs3, Hjs1, Hlen.
  destruct (active_joints w !! j) as [jt|]; simpl; [|done].
  by case_decide.
Qed.

(** X7. A move whose last planner answers with a status other than
    Success returns -1 and leaves the robot alone: the dynamic state, the
    passive force and every drive are as before, and no command was sent to
    the simulator or the viewer. *)
Theorem failed_move_leaves_robot pose (with_screw : bool) w :
  let qpos := get_qpos (phys w) in
  let screw_answer := plan_screw pose qpos (1 / 250)%float (planner w) in
  let sampling :=
    fst (plan_qpos_to_pose pose qpos (1 / 250)%float
           (if with_screw then snd screw_answer else planner w)) in
  let final :=
    if andb with_screw (is_success (fst screw_answer)) then fst screw_answer
    else sampling in
  let out := move_to_pose pose with_screw w in
  status final <> Success ->
  fst out = Returned (-1)%Z /\
  phys (snd out) = phys w /\
  robot_qf (snd out) = robot_qf w /\
  active_joints (snd out) = active_joints w /\
  exists evs,
    trace (snd out) = trace w ++ evs /\
    Forall (fun e => is_simulator_command e = false) evs.
Proof.
  intros qpos screw_answer sampling final out Hfail.
  subst out final sampling. unfold move_to_pose. destruct with_screw.
  - cbn [andb] in Hfail.
    pose proof (screw_unfold pose w) as Hscrew. cbv zeta in Hscrew.
    change (plan_screw pose (get_qpos (phys w)) (1 / 250)%float (planner w))
      with screw_answer in Hscrew.
    rewrite Hscrew. clear Hscrew.
    destruct (is_success (fst screw_answer)) eqn:Hs.
    { apply is_success_true in Hs. done. }
    rewrite rrtconnect_unfold. cbv zeta.
    cbn [phys robot_qf active_joints planner trace].
    apply is_success_false in Hfail. fold qpos. rewrite Hfail.
    cbn [fst snd phys robot_qf active_joints trace].
    repeat (split; [done|]).
    eexists. split; [rewrite <- !app_assoc; reflexivity|].
    by repeat constructor.
  - cbn [andb] in Hfail. rewrite rrtconnect_unfold. cbv zeta.
    apply is_success_false in Hfail. fold qpos. rewrite Hfail.
    cbn [fst snd phys robot_qf active_joints trace].
    repeat (split; [done|]).
    eexists. split; [rewrite <- !app_assoc; reflexivity|].
    by repeat constructor.
Qed.

(** X9. [follow_path] is not atomic: when the first sample has a position
    entry for joint 0 but no velocity entry, [IndexError] is raised after
    the position target of joint 0 has been written, and before the scene
    has stepped. *)
Theorem follow_path_raises_after_target result w jt x :
  0 < length (move_group_joint_indices (planner w)) ->
  active_joints w !! 0 = Some jt ->
  entry (position result) 0 0 = Some x ->
  entry (velocity result) 0 0 = None ->
  let qf := compute_passive_force (phys w) in
  follow_path result w =
    (Raised IndexError,
     mkWorld (phys w) qf (alter (set_drive_target x) 0 (active_joints w))
             (planner w)
             (trace w ++ [EvSetQf qf; EvSetDriveTarget 0 x])).
Proof.
  intros Hn Hjt Hx Hv qf. unfold follow_path, range.
  destruct (position result) as [|row rows] eqn:Hpos; [discriminate|].
  cbn [length seq for_each]. unfold bind at 1.
  rewrite follow_step_unfold. cbv zeta. unfold range.
  destruct (length (move_group_joint_indices (planner w))) as [|n']; [lia|].
  cbn [seq for_each]. unfold bind at 1.
  unfold drive_joint, bind, get, index.
  cbn [active_joints]. rewrite Hjt. cbn [ret].
  unfold entry in Hx, Hv. simpl in Hx.
  rewrite Hpos. simpl. rewrite Hx. simpl.
  unfold joint_set_drive_target. simpl.
  rewrite list_lookup_alter_eq, Hjt. simpl.
  destruct (velocity result !! 0) as [vrow|]; simpl.
  - rewrite Hv. simpl. by rewrite <- app_assoc.
  - by rewrite <- app_assoc.
Qed.

(** X10. [move_to_pose_with_RRTConnect] returns 0 exactly when the planner
    answers Success with a result that fits the robot (an entry for every
    sample and move-group joint, the move group being read from the planner
    after the request). *)
Theorem rrtconnect_returns_zero_iff pose w :
  let qpos := get_qpos (phys w) in
  let answer := plan_qpos_to_pose pose qpos (1 / 250)%float (planner w) in
  fst (move_to_pose_with_RRTConnect pose w) = Returned 0%Z <->
  status (fst answer) = Success /\
  fits (length (move_group_joint_indices (snd answer)))
       (length (active_joints w)) (fst answer).
Proof.
  intros qpos answer. rewrite rrtconnect_unfold. cbv zeta.
  fold qpos answer. rewrite <- is_success_true.
  destruct (is_success (fst answer)).
  - match goal with |- context [follow_path ?r ?a] =>
      destruct (follow_path_outcome r a) as (_ & _ & Hiff) end.
    cbn [planner active_joints] in Hiff. rewrite <- Hiff.
    match goal with |- context [follow_path ?r ?a] =>
      destruct (follow_path r a) as [[[]|e] w'] end; simpl.
    + tauto.
    + split; [discriminate|]. intros [_ Hbad]. discriminate Hbad.
  - simpl. split; [discriminate|]. intros [Hbad _]. discriminate Hbad.
Qed.

End DemoSetupLoops.

(** ** The further statements on the concrete scene *)


(** X3 on the scene: joint 1 ends on the last sample. *)
Lemma follow_path_last_sample_in_scene :
  exists jt',
    active_joints (snd (follow_path Scene.success_result Scene.initial)) !! 1
      = Some jt' /\
    entry (position Scene.success_result) 1 1 = Some (drive_target jt') /\
    entry (velocity Scene.success_result) 1 1 =
      Some (drive_velocity_target jt').
Proof.
  refine (follow_path_ends_on_last_sample
            Scene.success_result Scene.initial
            (snd (follow_path Scene.success_result Scene.initial)) _ _ 1 _).
  - vm_compute. reflexivity.
  - simpl. lia.
  - simpl. lia.
Defined.

(** X6 on the scene: the finger (joint 2) closed on 0.25 stays there. *)
Lemma grip_held_in_scene :
  active_joints
    (snd (follow_path Scene.success_result
            (snd (set_gripper 0.25%float Scene.initial)))) !! 2 =
    Some (set_drive_target 0.25%float Scene.rest_joint).
Proof.
  refine (grip_held_while_following 0.25%float Scene.success_result
            Scene.initial 2 Scene.rest_joint _ _ _).
  - simpl. lia.
  - simpl. lia.
  - reflexivity.
Defined.

(** X7 on the scene: target 13 is refused by both planners. *)
Lemma failed_move_in_scene :
  fst (move_to_pose 13 true Scene.initial) = Returned (-1)%Z /\
  active_joints (snd (move_to_pose 13 true Scene.initial)) =
    active_joints Scene.initial.
Proof.
  destruct (failed_move_leaves_robot 13 true Scene.initial)
    as (Hret & _ & _ & Hjs & _).
  - simpl. discriminate.
  - split; [exact Hret|exact Hjs].
Defined.

(** X9 on the scene: a result whose velocity array is empty. *)
Lemma follow_path_velocity_missing_in_scene :
  follow_path (mkResult Success [] [[0.5%float]] [] [] 0%float) Scene.initial =
    (Raised IndexError,
     mkWorld 0 [0; 0; 0]%float
             [set_drive_target 0.5%float Scene.rest_joint;
              Scene.rest_joint; Scene.rest_joint] 0
             [EvSetQf [0; 0; 0]%float; EvSetDriveTarget 0 0.5%float]).
Proof.
  refine (follow_path_raises_after_target
            (mkResult Success [] [[0.5%float]] [] [] 0%float)
            Scene.initial Scene.rest_joint 0.5%float _ _ _ _).
  - simpl. lia.
  - reflexivity.
  - reflexivity.
  - reflexivity.
Defined.

Section DemoSetupGripper.
Context {Pose Phys PState : Type}.
Context `{!Simulator Phys} `{!Planner Pose PState}.

Local Abbreviation W := (World Pose Phys PState).
Implicit Types (w : W).

Lemma gripper_loop_phys k : forall a w,
  phys (snd (for_each (seq a k) gripper_step w)) =
    Nat.iter k (fun p => scene_step (active_joints w)
                                    (compute_passive_force p) p) (phys w).
Proof.
  induction k as [|k IH]; intros a w; cbn [seq for_each].
  - done.
  - unfold bind. rewrite gripper_step_unfold. cbv beta iota zeta.
    rewrite IH. cbn [phys active_joints]. by rewrite Nat.iter_succ_r.
Qed.

(** X11. During [set_gripper] the drives are written once and then held:
    the dynamic state it leaves is the one reached by 100 scene steps under
    the final drives, the passive force being recomputed from the current
    state before each step. *)
Theorem set_gripper_steps_under_final_drives pos w :
  let out := set_gripper pos w in
  phys (snd out) =
    Nat.iter 100
      (fun p => scene_step (active_joints (snd out))
                           (compute_passive_force p) p)
      (phys w).
Proof.
  intros out. subst out. unfold set_gripper, bind, get, last_two, range.
  set (L := length (active_joints w)).
  destruct (target_loop pos (L - (L - 2)) (L - 2) w)
    as (w1 & Hrun1 & Hph & _).
  rewrite Hrun1.
  destruct (gripper_loop 100 0 w1) as (w' & Hrun2 & Hjs & _).
  pose proof (gripper_loop_phys 100 0 w1) as Hphys.
  rewrite Hrun2 in Hphys |- *. cbn [snd] in Hphys |- *.
  by rewrite Hphys, Hjs, Hph.
Qed.

End DemoSetupGripper.


(** * The screw-motion planner as specified, under the demo's wrapper *)

Section ScrewMotionPlannerFacts.
Import ScrewMotionPlanner.
Context {Pose Phys : Type} `{!Simulator Phys}.
Variable end_effector_pose : Config -> Pose.
Variable screw_samples : Pose -> Pose -> list Pose.
Variable solve_ik : Pose -> Config -> option Config.
Variable is_valid : Config -> bool.
Variable parameterize : list Config -> float -> PlanResult.
Variable sampling_plan : Pose -> Config -> float -> PlanResult.
Variable move_group : list nat.

Local Abbreviation the_core :=
  (core end_effector_pose screw_samples solve_ik is_valid parameterize
        sampling_plan move_group).
Local Abbreviation the_plan :=
  (plan end_effector_pose screw_samples solve_ik is_valid parameterize).
Local Abbreviation the_path := (screw_path solve_ik is_valid).

(** A path is returned only when every step converged and is valid, one
    configuration per intermediate pose, each found from the one before. *)
Lemma screw_path_complete poses : forall seed path,
  the_path poses seed = inl path ->
  length path = length poses /\
  Forall (fun q => is_valid q = true) path /\
  forall k pose before q,
    poses !! k = Some pose -> (seed :: path) !! k = Some before ->
    path !! k = Some q -> solve_ik pose before = Some q.
Proof.
  induction poses as [|pose poses IH]; intros seed path; simpl.
  - intros [= <-]. split; [done|]. split; [constructor|].
    by intros k ? ? ? ?.
  - destruct (solve_ik pose seed) as [q|] eqn:Hik; [|discriminate].
    destruct (is_valid q) eqn:Hvalid; [|discriminate].
    destruct (the_path poses q) as [rest|] eqn:Hrest; [|discriminate].
    intros [= <-]. destruct (IH _ _ Hrest) as (Hlen & Hall & Hchain).
    split; [simpl; congruence|]. split; [by constructor|].
    intros [|k] pose' before q' Hpose Hbefore Hq; simpl in *.
    + congruence.
    + by apply (Hchain k pose' before q').
Qed.

(** A step that does not converge or is invalid refuses the whole motion,
    whatever the steps before it found. *)
Lemma screw_path_fails_fast poses : forall seed failure,
  the_path poses seed = inr failure ->
  (failure = IKFailure \/ failure = PlanningFailure) /\
  exists k pose seed',
    k < length poses /\ poses !! k = Some pose /\
    match solve_ik pose seed' with
    | None => failure = IKFailure
    | Some q => is_valid q = false /\ failure = PlanningFailure
    end.
Proof.
  induction poses as [|pose poses IH]; intros seed failure; simpl.
  - discriminate.
  - destruct (solve_ik pose seed) as [q|] eqn:Hik.
    + destruct (is_valid q) eqn:Hvalid.
      * destruct (the_path poses q) as [rest|failure'] eqn:Hrest;
          [discriminate|].
        intros [= <-].
        destruct (IH _ _ Hrest) as (Hkind & k & pose' & seed' & Hk & Hp & Hstep).
        split; [done|]. exists (S k), pose', seed'.
        split; [lia|]. by split.
      * intros [= <-]. split; [by right|]. exists 0, pose, seed.
        split; [lia|]. split; [done|]. by rewrite Hik.
    + intros [= <-]. split; [by left|]. exists 0, pose, seed.
      split; [lia|]. split; [done|]. by rewrite Hik.
Qed.


End ScrewMotionPlannerFacts.

